(** * DepGraph: the program dependency graph of ecosoc (DepGraph.h)

    Shallow embedding of the node hierarchy, the node heap with its global
    STATISTIC counters, the graph indices, the intraprocedural builder and
    the four traversals of [llvm::Graph].

    Node pointers are modelled by the node's [ID] (process-unique, never
    reused), so the heap of live [GraphNode] objects is a [gmap nat Node].
    Values ([llvm::Value*]) are modelled as [nat]; alias-set IDs as [Z]. *)

From Stdlib Require Import ZArith Lia.
From stdpp Require Import base gmap sets list.
From Stdlib Require Strings.String Strings.Ascii.

Open Scope Z_scope.

(** ** Node hierarchy *)

(** [typedef enum { etData = 0, etControl = 1 } edgeType;] *)
Inductive edgeType := etData | etControl.

#[global] Instance edgeType_eq_dec : EqDecision edgeType.
Proof. solve_decision. Defined.

(** Dynamic type of a node together with the fields of its class:
    [OpNode] (OpCode, value), [CallNode] (the OpNode fields and [CI]),
    [VarNode] (value), [MemNode] (aliasSetID).  [GraphNode] is abstract
    (pure virtual [getLabel], [getShape], [clone]) and has no instance of
    its own. *)
Inductive Payload :=
| POp (OpCode : Z) (value : option nat)
| PCall (OpCode : Z) (value : option nat) (CI : nat)
| PVar (value : nat)
| PMem (aliasSetID : Z).

(** [class GraphNode]: [successors], [predecessors], [ID], [Class_ID]. *)
Record Node := mkNode {
  ID : nat;
  Class_ID : Z;
  successors : gmap nat edgeType;
  predecessors : gmap nat edgeType;
  payload : Payload
}.

Definition set_Class_ID (c : Z) (n : Node) : Node :=
  mkNode (ID n) c (successors n) (predecessors n) (payload n).
Definition set_successors (m : gmap nat edgeType) (n : Node) : Node :=
  mkNode (ID n) (Class_ID n) m (predecessors n) (payload n).
Definition set_predecessors (m : gmap nat edgeType) (n : Node) : Node :=
  mkNode (ID n) (Class_ID n) (successors n) m (payload n).

(** [Instruction::Call]: LLVM's opcode constant for calls (48 in the
    LLVM 3.3 instruction table); no property below depends on its value. *)
Definition Instruction_Call : Z := 48.

(** [GraphNode::classof], [OpNode::classof], [CallNode::classof],
    [VarNode::classof], [MemNode::classof]. *)
Definition GraphNode_classof (n : Node) : bool := true.
Definition OpNode_classof (n : Node) : bool :=
  bool_decide (Class_ID n = 1) || bool_decide (Class_ID n = 3).
Definition CallNode_classof (n : Node) : bool := bool_decide (Class_ID n = 3).
Definition VarNode_classof (n : Node) : bool := bool_decide (Class_ID n = 2).
Definition MemNode_classof (n : Node) : bool := bool_decide (Class_ID n = 4).

(** ** Global state: the heap of live nodes and the STATISTIC counters

    [GraphNode::currentID] is the static ID counter; [NrOpNodes],
    [NrVarNodes], [NrMemNodes] and [NrEdges] are the global STATISTICs
    (unsigned counters, modelled without overflow). *)
Record St := mkSt {
  heap : gmap nat Node;
  currentID : nat;
  NrOpNodes : Z;
  NrVarNodes : Z;
  NrMemNodes : Z;
  NrEdges : Z
}.

Definition st_init : St := mkSt ∅ 0 0 0 0 0.

Definition set_heap (h : gmap nat Node) (s : St) : St :=
  mkSt h (currentID s) (NrOpNodes s) (NrVarNodes s) (NrMemNodes s) (NrEdges s).

(** Modelled from the spec: the body of [GraphNode::GraphNode()] (in the
    missing DepGraph.cpp): a fresh node with no edges, whose [ID] is the
    next value of the static counter [currentID]. [Class_ID] is left to the
    derived constructor; 0 stands for the not yet assigned field. *)
Definition new_GraphNode (p : Payload) (s : St) : St * nat :=
  let i := currentID s in
  (mkSt (<[i := mkNode i 0 ∅ ∅ p]> (heap s)) (S i)
        (NrOpNodes s) (NrVarNodes s) (NrMemNodes s) (NrEdges s), i).

Definition upd_node (f : Node -> Node) (i : nat) (s : St) : St :=
  set_heap (alter f i (heap s)) s.

Definition incr_NrOpNodes (s : St) : St :=
  mkSt (heap s) (currentID s) (NrOpNodes s + 1) (NrVarNodes s) (NrMemNodes s) (NrEdges s).
Definition incr_NrVarNodes (s : St) : St :=
  mkSt (heap s) (currentID s) (NrOpNodes s) (NrVarNodes s + 1) (NrMemNodes s) (NrEdges s).
Definition incr_NrMemNodes (s : St) : St :=
  mkSt (heap s) (currentID s) (NrOpNodes s) (NrVarNodes s) (NrMemNodes s + 1) (NrEdges s).

(** [OpNode(int OpCode, Value* v) : GraphNode(), OpCode(OpCode), value(v)
    { this->Class_ID = 1; NrOpNodes++; }] (the one-argument constructor is
    the same with [value(NULL)]). *)
Definition new_OpNode_payload (p : Payload) (s : St) : St * nat :=
  let '(s1, i) := new_GraphNode p s in
  (incr_NrOpNodes (upd_node (set_Class_ID 1) i s1), i).

Definition new_OpNode (opc : Z) (v : option nat) (s : St) : St * nat :=
  new_OpNode_payload (POp opc v) s.

(** [CallNode(CallInst* CI) : OpNode(Instruction::Call, CI), CI(CI)
    { this->Class_ID = 3; }] *)
Definition new_CallNode (ci : nat) (s : St) : St * nat :=
  let '(s1, i) := new_OpNode_payload (PCall Instruction_Call (Some ci) ci) s in
  (upd_node (set_Class_ID 3) i s1, i).

(** [VarNode(Value* value) : GraphNode(), value(value)
    { this->Class_ID = 2; NrVarNodes++; }] *)
Definition new_VarNode (v : nat) (s : St) : St * nat :=
  let '(s1, i) := new_GraphNode (PVar v) s in
  (incr_NrVarNodes (upd_node (set_Class_ID 2) i s1), i).

(** [MemNode(int aliasSetID, AliasSetsIza *AS) : aliasSetID(aliasSetID),
    AS(AS) { this->Class_ID = 4; NrMemNodes++; }] *)
Definition new_MemNode (id : Z) (s : St) : St * nat :=
  let '(s1, i) := new_GraphNode (PMem id) s in
  (incr_NrMemNodes (upd_node (set_Class_ID 4) i s1), i).

(** Modelled from the spec: the body of [GraphNode::connect] (in the
    missing DepGraph.cpp), "idempotent per (target, type) pair; updates both
    endpoints' maps and increments the global edge counter exactly once per
    newly-created (src,dst,type) triple". The maps are the header's
    [std::map<GraphNode*, edgeType>]: one entry per neighbour, so
    [successors[dst] = type] replaces an entry of the other type. *)
Definition connect (src dst : nat) (t : edgeType) (s : St) : St :=
  match heap s !! src with
  | None => s
  | Some a =>
      if decide (successors a !! dst = Some t) then s
      else
        let s1 := upd_node (fun n => set_successors (<[dst := t]> (successors n)) n) src s in
        let s2 := upd_node (fun n => set_predecessors (<[src := t]> (predecessors n)) n) dst s1 in
        mkSt (heap s2) (currentID s2) (NrOpNodes s2) (NrVarNodes s2) (NrMemNodes s2)
             (NrEdges s2 + 1)
  end.

(** Number of distinct edges incident to a node (a self loop counted
    once). *)
Definition incident_edges (n : Node) (i : nat) : Z :=
  Z.of_nat (size (successors n)) + Z.of_nat (size (predecessors n))
  - (if decide (i ∈ dom (successors n)) then 1 else 0).

Definition unlink (i : nat) (n : Node) : Node :=
  mkNode (ID n) (Class_ID n) (delete i (successors n)) (delete i (predecessors n))
         (payload n).

(** [delete n] of a live node: the virtual destructor chain. The derived
    destructors are the header's ([~OpNode] runs [NrOpNodes--], also for a
    [CallNode]; [~VarNode] runs [NrVarNodes--]; [~MemNode] runs
    [NrMemNodes--]). Modelled from the spec: [~GraphNode] (in the missing
    DepGraph.cpp) severs all the node's edges, removing it from the maps of
    its neighbours, and decrements the edge counter by the edges removed. *)
Definition delete_node (i : nat) (s : St) : St :=
  match heap s !! i with
  | None => s
  | Some n =>
      let h := delete i (fmap (unlink i) (heap s)) in
      let e := NrEdges s - incident_edges n i in
      match payload n with
      | POp _ _ | PCall _ _ _ =>
          mkSt h (currentID s) (NrOpNodes s - 1) (NrVarNodes s) (NrMemNodes s) e
      | PVar _ =>
          mkSt h (currentID s) (NrOpNodes s) (NrVarNodes s - 1) (NrMemNodes s) e
      | PMem _ =>
          mkSt h (currentID s) (NrOpNodes s) (NrVarNodes s) (NrMemNodes s - 1) e
      end
  end.

(** [Graph(AliasSetsIza *AS) : AS(AS) { NrEdges = 0; }] *)
Definition graph_ctor (s : St) : St :=
  mkSt (heap s) (currentID s) (NrOpNodes s) (NrVarNodes s) (NrMemNodes s) 0.

(** The operations that change the global state: constructing a graph,
    constructing a node of each class, [connect] between live nodes and
    deleting a live node. Every construction or mutation of the pass is a
    sequence of these. *)
Inductive step : St -> St -> Prop :=
| step_graph s : step s (graph_ctor s)
| step_op s opc v : step s (new_OpNode opc v s).1
| step_call s ci : step s (new_CallNode ci s).1
| step_var s v : step s (new_VarNode v s).1
| step_mem s id : step s (new_MemNode id s).1
| step_connect s a b t :
    is_Some (heap s !! a) -> is_Some (heap s !! b) -> step s (connect a b t s)
| step_delete s i : is_Some (heap s !! i) -> step s (delete_node i s).

Inductive reachable : St -> Prop :=
| reach_init : reachable st_init
| reach_step s s' : reachable s -> step s s' -> reachable s'.

(** ** Observations on a state *)

(** [A->successors] holds [B] with type [t] ([A] live). *)
Definition edge_succ (h : gmap nat Node) (a b : nat) (t : edgeType) : Prop :=
  exists n, h !! a = Some n /\ successors n !! b = Some t.

(** [B->predecessors] holds [A] with type [t] ([B] live). *)
Definition edge_pred (h : gmap nat Node) (b a : nat) (t : edgeType) : Prop :=
  exists n, h !! b = Some n /\ predecessors n !! a = Some t.

(** The two adjacency maps of the live nodes mirror each other. *)
Definition symmetric (h : gmap nat Node) : Prop :=
  forall a b t, edge_succ h a b t <-> edge_pred h b a t.

(** Number of live nodes satisfying [Q]. *)
Definition count (Q : Node -> bool) (h : gmap nat Node) : Z :=
  Z.of_nat (size (filter (fun kv : nat * Node => Q kv.2 = true) h)).

(** Dynamic type tests: an [OpNode] object (of class OpNode or CallNode),
    a [CallNode], a [VarNode], a [MemNode]. *)
Definition is_op_obj (n : Node) : bool :=
  match payload n with POp _ _ | PCall _ _ _ => true | _ => false end.
Definition is_call_obj (n : Node) : bool :=
  match payload n with PCall _ _ _ => true | _ => false end.
Definition is_var_obj (n : Node) : bool :=
  match payload n with PVar _ => true | _ => false end.
Definition is_mem_obj (n : Node) : bool :=
  match payload n with PMem _ => true | _ => false end.

(** [Class_ID] the constructors leave in an object of each dynamic type. *)
Definition payload_class (p : Payload) : Z :=
  match p with POp _ _ => 1 | PCall _ _ _ => 3 | PVar _ => 2 | PMem _ => 4 end.

(** Live edges: the entries of all successor maps. *)
Definition live_edges (h : gmap nat Node) : Z :=
  map_fold (fun _ n acc => acc + Z.of_nat (size (successors n))) 0 h.

(** Invariants of the global state used by the proofs. *)
Definition ids_fresh (s : St) : Prop :=
  forall k, is_Some (heap s !! k) -> (k < currentID s)%nat.

Definition classes_ok (h : gmap nat Node) : Prop :=
  forall k n, h !! k = Some n -> Class_ID n = payload_class (payload n).

Definition counters_ok (s : St) : Prop :=
  NrOpNodes s = count is_op_obj (heap s) /\
  NrVarNodes s = count is_var_obj (heap s) /\
  NrMemNodes s = count is_mem_obj (heap s).

Definition Inv (s : St) : Prop :=
  ids_fresh s /\ classes_ok (heap s) /\ counters_ok s /\ symmetric (heap s).

(** ** The graph: value-keyed indices and node set

    [opNodes], [callNodes], [varNodes] ([DenseMap<Value*, GraphNode*>]),
    [memNodes] ([DenseMap<int, GraphNode*>]), [nodes]
    ([std::set<GraphNode*>]) and [AS], the alias oracle, given here by its
    query "alias-set ID of a value, if any". *)
Record Graph := mkGraph {
  AS : nat -> option Z;
  opNodes : gmap nat nat;
  callNodes : gmap nat nat;
  varNodes : gmap nat nat;
  memNodes : gmap Z nat;
  nodes : gset nat
}.

Definition empty_graph (as_ : nat -> option Z) : Graph := mkGraph as_ ∅ ∅ ∅ ∅ ∅.

(** Modelled from the spec: [Graph::findNode] (in the missing DepGraph.cpp):
    a value of a known alias set is found through its Memory node, any
    other value through the value-keyed indices; a miss is [NULL]. *)
Definition findNode (G : Graph) (v : nat) : option nat :=
  match AS G v with
  | Some id => memNodes G !! id
  | None =>
      match opNodes G !! v with
      | Some n => Some n
      | None => match callNodes G !! v with Some n => Some n | None => varNodes G !! v end
      end
  end.

(** Modelled from the spec: [Graph::findNodes], the nodes of the values
    that have one; values without a node are skipped. *)
Definition findNodes (G : Graph) (vs : gset nat) : gset nat :=
  list_to_set (omap (findNode G) (elements vs)).

(** ** Adjacency of the live nodes *)

(** The keys of [getSuccessors()] and [getPredecessors()], in map order. *)
Definition succ_list (h : gmap nat Node) (u : nat) : list nat :=
  match h !! u with Some n => map fst (map_to_list (successors n)) | None => [] end.
Definition pred_list (h : gmap nat Node) (u : nat) : list nat :=
  match h !! u with Some n => map fst (map_to_list (predecessors n)) | None => [] end.

Definition adj_dir (h : gmap nat Node) (forward : bool) : nat -> list nat :=
  if forward then succ_list h else pred_list h.

(** Every node a traversal can meet: the live nodes and every node an
    adjacency map refers to. It bounds the traversals. *)
Definition univ (h : gmap nat Node) : gset nat :=
  dom h ∪ ⋃ (map (fun kv : nat * Node => dom (successors kv.2) ∪ dom (predecessors kv.2))
                (map_to_list h)).

(** ** Depth-first traversal

    Modelled from the spec: [Graph::dfsVisit] / [dfsVisitBack] (in the
    missing DepGraph.cpp), "recursive depth-first traversals with cycle-safe
    visited-set tracking (a node already in the visited set is never
    re-expanded)". The state is the visited set and, as instrumentation,
    the list of expanded nodes in expansion order. The recursion depth is
    bounded by [fuel]; running out of it is reported as [None]. *)
Section DepthFirst.
Variable adj : nat -> list nat.

Fixpoint dfs_fold (visit : nat -> gset nat * list nat -> option (gset nat * list nat))
    (ws : list nat) (st : gset nat * list nat) : option (gset nat * list nat) :=
  match ws with
  | [] => Some st
  | w :: ws' =>
      match visit w st with
      | Some st' => dfs_fold visit ws' st'
      | None => None
      end
  end.

Fixpoint dfsVisit (fuel : nat) (u : nat) (st : gset nat * list nat)
    : option (gset nat * list nat) :=
  if decide (u ∈ st.1) then Some st
  else
    match fuel with
    | O => None
    | S f => dfs_fold (dfsVisit f) (adj u) ({[u]} ∪ st.1, st.2 ++ [u])
    end.

(** [reach u x]: [x] is reached from [u] by following [adj]. *)
Inductive reach : nat -> nat -> Prop :=
| reach_refl x : reach x x
| reach_next x y z : y ∈ adj x -> reach y z -> reach x z.

End DepthFirst.

(** What a traversal step adds, from visited set [V] and expansion list
    [T] to [V'] and [T']: the newly expanded nodes [D], each expanded once,
    none visited before, all satisfying [src], and with all their
    neighbours visited at the end. *)
Definition dfs_grows (adj : nat -> list nat) (V : gset nat) (T : list nat)
    (V' : gset nat) (T' : list nat) (src : nat -> Prop) : Prop :=
  exists D, T' = T ++ D /\ NoDup D /\ (forall x, x ∈ D -> x ∉ V) /\
            V' = V ∪ list_to_set D /\ (forall x, x ∈ D -> src x) /\
            (forall x w, x ∈ D -> w ∈ adj x -> w ∈ V').

(** Modelled from the spec: the traversal of [Graph::getDepValues]
    (in the missing DepGraph.cpp), one visited set threaded through a
    depth-first traversal from each source node. *)
Definition getDepValues_run (h : gmap nat Node) (srcs : gset nat) (forward : bool)
    : option (gset nat * list nat) :=
  dfs_fold (dfsVisit (adj_dir h forward) (size (univ h ∪ srcs))) (elements srcs) (∅, []).

(** [Graph::getDepValues(std::set<Value*> sources, bool forward)]. *)
Definition getDepValues (G : Graph) (h : gmap nat Node) (sources : gset nat) (forward : bool)
    : gset nat :=
  match getDepValues_run h (findNodes G sources) forward with
  | Some (V, _) => V
  | None => ∅
  end.

(** Modelled from the spec: the clones [Graph::generateSubGraph] puts in
    the new graph, for the kept node set [K]: each kept node with the same
    payload and only its edges to kept nodes. A clone is named by the node
    it copies. *)
Definition induced (h : gmap nat Node) (K : gset nat) : gmap nat Node :=
  (fun n => mkNode (ID n) (Class_ID n)
              (filter (fun kv : nat * edgeType => kv.1 ∈ K) (successors n))
              (filter (fun kv : nat * edgeType => kv.1 ∈ K) (predecessors n))
              (payload n))
  <$> filter (fun kv : nat * Node => kv.1 ∈ K) h.

(** Modelled from the spec: [Graph::generateSubGraph(Value *src, Value
    *dst)] (in the missing DepGraph.cpp), "the intersection of
    forward-reachable-from-source and backward-reachable-from-destination,
    realized via two recursive depth-first traversals". A missing endpoint
    gives the empty graph. *)
Definition generateSubGraph (G : Graph) (h : gmap nat Node) (src dst : nat)
    : gmap nat Node :=
  match findNode G src, findNode G dst with
  | Some s, Some d =>
      match getDepValues_run h {[s]} true, getDepValues_run h {[d]} false with
      | Some (F, _), Some (B, _) => induced h (F ∩ B)
      | _, _ => ∅
      end
  | _, _ => ∅
  end.

(** ** Breadth-first traversal

    Modelled from the spec: the backward breadth-first search of
    [Graph::getNearestDependency] and [Graph::getEveryDependency] (in the
    missing DepGraph.cpp). A queue entry records the node, its parent in
    the BFS tree and its reported distance from the sink. *)
Record bfs_entry := mkEntry {
  b_node : nat;
  b_parent : option nat;
  b_dist : Z
}.

Definition is_mem_node (h : gmap nat Node) (w : nat) : bool :=
  match h !! w with Some n => MemNode_classof n | None => false end.

(** The cost of the hop onto [w]: free for a Memory node when
    [skipMemoryNodes] is set. *)
Definition hop_cost (h : gmap nat Node) (skip : bool) (w : nat) : Z :=
  if skip && is_mem_node h w then 0 else 1.

(** Enqueue the unvisited predecessors [ws] of the dequeued node [u]
    (reported distance [r]). *)
Fixpoint bfs_visit (h : gmap nat Node) (skip : bool) (u : nat) (r : Z) (ws : list nat)
    (st : gset nat * list bfs_entry) : gset nat * list bfs_entry :=
  match ws with
  | [] => st
  | w :: ws' =>
      if decide (w ∈ st.1) then bfs_visit h skip u r ws' st
      else bfs_visit h skip u r ws'
             ({[w]} ∪ st.1, st.2 ++ [mkEntry w (Some u) (r + hop_cost h skip w)])
  end.

(** Dequeue a whole level [F], building the next one. *)
Fixpoint bfs_expand (h : gmap nat Node) (skip : bool) (F : list bfs_entry)
    (st : gset nat * list bfs_entry) : gset nat * list bfs_entry :=
  match F with
  | [] => st
  | e :: F' => bfs_expand h skip F' (bfs_visit h skip (b_node e) (b_dist e) (pred_list h (b_node e)) st)
  end.

(** The levels of the queue, in dequeue order, from the level [F] on with
    visited set [V]; [None] when the fuel runs out. *)
Fixpoint bfs_levels (h : gmap nat Node) (skip : bool) (fuel : nat) (V : gset nat)
    (F : list bfs_entry) : option (list (list bfs_entry)) :=
  match F with
  | [] => Some []
  | _ :: _ =>
      match fuel with
      | O => None
      | S f =>
          let st := bfs_expand h skip F (V, []) in
          match bfs_levels h skip f st.1 st.2 with
          | Some L => Some (F :: L)
          | None => None
          end
      end
  end.

Definition bfs_run (h : gmap nat Node) (skip : bool) (t : nat) : option (list (list bfs_entry)) :=
  bfs_levels h skip (size (univ h ∪ {[t]})) {[t]} [mkEntry t None 0].

(** Modelled from the spec: [Graph::getNearestDependency(sink, sources,
    skipMemoryNodes)], the first candidate dequeued and its reported
    distance, or the sentinel [(NULL, -1)]. *)
Definition getNearestDependency (G : Graph) (h : gmap nat Node) (sink : nat)
    (sources : gset nat) (skipMemoryNodes : bool) : option nat * Z :=
  match findNode G sink with
  | Some t =>
      match bfs_run h skipMemoryNodes t with
      | Some L =>
          match List.find (fun e => bool_decide (b_node e ∈ findNodes G sources)) (concat L) with
          | Some e => (Some (b_node e), b_dist e)
          | None => (None, -1)
          end
      | None => (None, -1)
      end
  | None => (None, -1)
  end.

(** The BFS-tree parent of every visited node but the sink. *)
Definition bfs_parents (L : list (list bfs_entry)) : gmap nat nat :=
  list_to_map (omap (fun e => match b_parent e with Some p => Some (b_node e, p) | None => None end)
                    (concat L)).

(** Walk the parent links from [x] to the sink. *)
Fixpoint trace_back (fuel : nat) (P : gmap nat nat) (x : nat) : list nat :=
  x :: match fuel with
       | O => []
       | S f => match P !! x with Some p => trace_back f P p | None => [] end
       end.

(** Modelled from the spec: [Graph::getEveryDependency(sink, sources,
    skipMemoryNodes)], a path from each reached candidate node to the sink;
    the flag plays no part in the paths. *)
Definition getEveryDependency (G : Graph) (h : gmap nat Node) (sink : nat)
    (sources : gset nat) (skipMemoryNodes : bool) : gmap nat (list nat) :=
  match findNode G sink with
  | Some t =>
      match bfs_run h skipMemoryNodes t with
      | Some L =>
          let R : gset nat := list_to_set (b_node <$> concat L) in
          list_to_map ((fun c => (c, trace_back (length (concat L)) (bfs_parents L) c))
                         <$> filter (fun c => c ∈ R) (elements (findNodes G sources)))
      | None => ∅
      end
  | None => ∅
  end.

(** [walk h t k x]: [x] is reached from the sink [t] by [k] backward hops. *)
Inductive walk (h : gmap nat Node) (t : nat) : nat -> nat -> Prop :=
| walk_0 : walk h t 0 t
| walk_S k y x : walk h t k y -> x ∈ pred_list h y -> walk h t (S k) x.

(** The same walk, with the reported distance [r] of its hops. *)
Inductive walkc (h : gmap nat Node) (skip : bool) (t : nat) : nat -> nat -> Z -> Prop :=
| walkc_0 : walkc h skip t 0 t 0
| walkc_S k y x r : walkc h skip t k y r -> x ∈ pred_list h y ->
    walkc h skip t (S k) x (r + hop_cost h skip x).

(** A node sequence whose consecutive nodes are joined by edges, each node
    a predecessor of the next. *)
Fixpoint pred_chain (h : gmap nat Node) (l : list nat) : Prop :=
  match l with
  | x :: ((y :: _) as l') => x ∈ pred_list h y /\ pred_chain h l'
  | _ => True
  end.

(** [k] is the least number of backward hops from the sink [t] to [x]. *)
Definition min_dist (h : gmap nat Node) (t x k : nat) : Prop :=
  walk h t k x /\ forall j, (j < k)%nat -> ~ walk h t j x.

(** What the BFS level [F] of index [k] is made of: the nodes at least
    distance [k], once each, with their reported distances and their
    parents one level up. *)
Definition level_ok (h : gmap nat Node) (skip : bool) (t k : nat) (F : list bfs_entry) : Prop :=
  NoDup (b_node <$> F) /\
  (forall x, x ∈ b_node <$> F <-> min_dist h t x k) /\
  (forall e, e ∈ F -> walkc h skip t k (b_node e) (b_dist e)) /\
  (forall e, e ∈ F ->
     match k with
     | O => b_parent e = None
     | S j => exists p, b_parent e = Some p /\ b_node e ∈ pred_list h p /\ min_dist h t p j
     end).

(** The state of the BFS before the level [F] of index [k] is dequeued,
    with visited set [V]. *)
Definition bfs_inv (h : gmap nat Node) (skip : bool) (t k : nat) (V : gset nat)
    (F : list bfs_entry) : Prop :=
  level_ok h skip t k F /\ V ⊆ univ h ∪ {[t]} /\
  (forall x, x ∈ V <-> exists j, (j <= k)%nat /\ walk h t j x) /\
  (forall x, x ∈ V -> x ∉ b_node <$> F -> exists j, (j < k)%nat /\ walk h t j x) /\
  (forall y x, y ∈ V -> y ∉ b_node <$> F -> x ∈ pred_list h y -> x ∈ V).

(** ** Graph construction

    The instruction-level facts [addInst] queries about a value: excluded
    from the graph (debug and intrinsic markers), a call, another
    instruction (its opcode, and whether it transfers control), or a value
    that is not an instruction (constant, argument). *)
Inductive ValueKind :=
| VInvalid
| VCall
| VInst (opc : Z) (ctrl : bool)
| VOther.

(** The program the graph is built over: the kind and the operands of each
    value. *)
Record IR := mkIR {
  vkind : nat -> ValueKind;
  voperands : nat -> list nat
}.

(** Modelled from the spec: the node [Graph::addInst] (in the missing
    DepGraph.cpp) routes a value to, creating it on first reference: the
    Memory node of the value's alias set when the oracle reports one, else
    the value's Call, Operation or Variable node. *)
Definition node_of (P : IR) (v : nat) (G : Graph) (s : St) : Graph * St * nat :=
  match AS G v with
  | Some id =>
      match memNodes G !! id with
      | Some n => (G, s, n)
      | None =>
          let '(s', n) := new_MemNode id s in
          (mkGraph (AS G) (opNodes G) (callNodes G) (varNodes G) (<[id := n]> (memNodes G))
                   ({[n]} ∪ nodes G), s', n)
      end
  | None =>
      match vkind P v with
      | VCall =>
          match callNodes G !! v with
          | Some n => (G, s, n)
          | None =>
              let '(s', n) := new_CallNode v s in
              (mkGraph (AS G) (opNodes G) (<[v := n]> (callNodes G)) (varNodes G) (memNodes G)
                       ({[n]} ∪ nodes G), s', n)
          end
      | VInst opc _ =>
          match opNodes G !! v with
          | Some n => (G, s, n)
          | None =>
              let '(s', n) := new_OpNode opc (Some v) s in
              (mkGraph (AS G) (<[v := n]> (opNodes G)) (callNodes G) (varNodes G) (memNodes G)
                       ({[n]} ∪ nodes G), s', n)
          end
      | _ =>
          match varNodes G !! v with
          | Some n => (G, s, n)
          | None =>
              let '(s', n) := new_VarNode v s in
              (mkGraph (AS G) (opNodes G) (callNodes G) (<[v := n]> (varNodes G)) (memNodes G)
                       ({[n]} ∪ nodes G), s', n)
          end
      end
  end.

(** The state of a construction: the graph, the global state and, as
    instrumentation, the node each referenced value was routed to. *)
Definition build_state : Type := Graph * St * list (nat * nat).

(** Connect the node of each operand in [os] to the instruction node [n]
    ([Graph::addEdge], that is [GraphNode::connect]). *)
Fixpoint add_operands (P : IR) (n : nat) (ty : edgeType) (os : list nat) (st : build_state)
    : build_state :=
  match os with
  | [] => st
  | o :: os' =>
      let '(G, s, log) := st in
      let '(G1, s1, no) := node_of P o G s in
      add_operands P n ty os' (G1, connect no n ty s1, log ++ [(o, no)])
  end.

(** Modelled from the spec: [GraphNode* Graph::addInst(Value *v)] (in the
    missing DepGraph.cpp): nothing for an excluded instruction, else the
    value's node, with an edge from each operand's node, a control edge for
    a control-transfer instruction and a data edge otherwise. *)
Definition addInst (P : IR) (v : nat) (st : build_state) : build_state * option nat :=
  match vkind P v with
  | VInvalid => (st, None)
  | k =>
      let '(G, s, log) := st in
      let '(G1, s1, n) := node_of P v G s in
      let ty := match k with VInst _ true => etControl | _ => etData end in
      (add_operands P n ty (voperands P v) (G1, s1, log ++ [(v, n)]), Some n)
  end.

(** Intraprocedural construction: [addInst] over the instructions [vs]. *)
Fixpoint build (P : IR) (vs : list nat) (st : build_state) : build_state :=
  match vs with
  | [] => st
  | v :: vs' => build P vs' (addInst P v st).1
  end.

(** The payload and class of the node at [n], if live. *)
Definition node_kind (s : St) (n : nat) : option (Payload * Z) :=
  (fun nd => (payload nd, Class_ID nd)) <$> heap s !! n.

(** From [s] to [s'] no node of an earlier ID changes its payload or
    class. *)
Definition preserves (s s' : St) : Prop :=
  (currentID s <= currentID s')%nat /\
  forall n, (n < currentID s)%nat -> node_kind s' n = node_kind s n.

(** During construction: the graph's nodes are allocated, its Memory-node
    index holds Memory nodes of the right ID, every Memory node of the graph
    is the indexed one, and every value routed through an alias set went to
    the indexed node. *)
Definition builder_inv (G : Graph) (s : St) (log : list (nat * nat)) : Prop :=
  (forall n, n ∈ nodes G -> (n < currentID s)%nat) /\
  (forall id n, memNodes G !! id = Some n -> n ∈ nodes G /\ node_kind s n = Some (PMem id, 4)) /\
  (forall n id c, n ∈ nodes G -> node_kind s n = Some (PMem id, c) -> memNodes G !! id = Some n) /\
  (forall v n id, (v, n) ∈ log -> AS G v = Some id -> memNodes G !! id = Some n).

(** ** Node lifetime and the module view pass *)

(** Deleting the node a constructor has just returned gives back the heap,
    the STATISTIC counters and the edge counter of the state before the
    construction; only the ID counter has moved on. *)
Definition ctor_undone (s : St) (r : St * nat) : Prop :=
  let s2 := delete_node r.2 r.1 in
  heap s2 = heap s /\ NrOpNodes s2 = NrOpNodes s /\ NrVarNodes s2 = NrVarNodes s /\
  NrMemNodes s2 = NrMemNodes s /\ NrEdges s2 = NrEdges s /\ currentID s2 = S (currentID s).

Section ViewModule.
Import Strings.String Strings.Ascii.
Local Open Scope string_scope.

(** The character literal ['\\'] (ASCII 92). *)
Definition backslash : ascii := "092"%char.

(** [std::replace(first, last, old_value, new_value)] over a whole
    [std::string]: every character equal to [old_value] is overwritten with
    [new_value]. *)
Fixpoint replace (s : string) (old_value new_value : ascii) : string :=
  match s with
  | EmptyString => EmptyString
  | String c r =>
      String (if Ascii.eqb c old_value then new_value else c) (replace r old_value new_value)
  end.

(** [ViewModuleDepGraph::runOnModule(M)]:
    [tmp = M.getModuleIdentifier(); replace(tmp.begin(), tmp.end(), '\\', '_');
     Filename = "/tmp/" + tmp + ".dot"; g->toDot(M.getModuleIdentifier(), Filename);
     return false;]. The call to [toDot] is returned as the pair of its
    arguments, beside the pass's result. *)
Definition ViewModuleDepGraph_runOnModule (moduleIdentifier : string) :
    (string * string) * bool :=
  let tmp := replace moduleIdentifier backslash "_" in
  let Filename := "/tmp/" ++ tmp ++ ".dot" in
  ((moduleIdentifier, Filename), false).

End ViewModule.

(** A small run: a first [Graph], a [VarNode] (node 0), an [OpNode]
    (node 1), the edge 0 -> 1, a [CallNode] (node 2), then a second
    [Graph]. *)
Definition demo_s0 : St := graph_ctor st_init.
Definition demo_s1 : St := (new_VarNode 7%nat demo_s0).1.
Definition demo_s2 : St := (new_OpNode 8 (Some 9%nat) demo_s1).1.
Definition demo_s3 : St := connect 0 1 etData demo_s2.
Definition demo_s4 : St := (new_CallNode 11%nat demo_s3).1.
Definition demo_s5 : St := graph_ctor demo_s4.

(** The indices of a [Graph] over that run: value 7 has the [VarNode] 0,
    value 9 the [OpNode] 1. *)
Definition demo_G : Graph :=
  mkGraph (fun _ => None) {[9%nat := 1%nat]} ∅ {[7%nat := 0%nat]} ∅ {[0%nat; 1%nat]}.

(** A second run: a [VarNode] (node 0) for value 20, a [MemNode] (node 1)
    for alias set 5 and an [OpNode] (node 2) for value 21, with the edges
    0 -> 1 -> 2. *)
Definition mem_s0 : St := graph_ctor st_init.
Definition mem_s1 : St := (new_VarNode 20%nat mem_s0).1.
Definition mem_s2 : St := (new_MemNode 5 mem_s1).1.
Definition mem_s3 : St := (new_OpNode 8 (Some 21%nat) mem_s2).1.
Definition mem_s4 : St := connect 0 1 etData mem_s3.
Definition mem_s5 : St := connect 1 2 etData mem_s4.
Definition mem_G : Graph :=
  mkGraph (fun _ => None) {[21%nat := 2%nat]} ∅ {[20%nat := 0%nat]} {[5 := 1%nat]}
          {[0%nat; 1%nat; 2%nat]}.

(** A small program: instruction 1 (opcode 8) has operands 2 and 3, two
    pointers of alias set 7; value 4 is a constant. *)
Definition alias_IR : IR :=
  mkIR (fun v => match v with 1%nat => VInst 8 false | _ => VOther end)
       (fun v => match v with 1%nat => [2%nat; 3%nat; 4%nat] | _ => [] end).
Definition alias_AS (v : nat) : option Z :=
  match v with 2%nat | 3%nat => Some 7 | _ => None end.

(* PROPERTIES *)

(** ** Heap lemmas *)

Ltac unfold_ctor :=
  unfold new_GraphNode, incr_NrOpNodes, incr_NrVarNodes, incr_NrMemNodes, upd_node, set_heap;
  cbn [heap currentID NrOpNodes NrVarNodes NrMemNodes NrEdges fst snd].

Lemma count_ext (Q Q' : Node -> bool) (h h' : gmap nat Node) :
  (forall k, (exists n, h !! k = Some n /\ Q n = true) <->
             (exists n, h' !! k = Some n /\ Q' n = true)) ->
  count Q h = count Q' h'.
Proof.
  intros H. unfold count. f_equal. rewrite <- !size_dom. f_equal.
  apply set_eq. intros k. rewrite !elem_of_dom.
  split; intros [x Hx]; apply map_lookup_filter_Some in Hx as [Hx HQ]; simpl in HQ.
  - destruct (proj1 (H k) (ex_intro _ x (conj Hx HQ))) as (y & Hy & HQ').
    exists y. by apply map_lookup_filter_Some.
  - destruct (proj2 (H k) (ex_intro _ x (conj Hx HQ))) as (y & Hy & HQ').
    exists y. by apply map_lookup_filter_Some.
Qed.

Lemma count_insert_fresh (Q : Node -> bool) (h : gmap nat Node) i n :
  h !! i = None -> count Q (<[i := n]> h) = count Q h + (if Q n then 1 else 0).
Proof.
  intros Hi. unfold count. rewrite map_filter_insert. case_decide as HQ; simpl in HQ.
  - rewrite HQ, map_size_insert_None; [lia|].
    apply map_lookup_filter_None. by left.
  - rewrite delete_id by done. destruct (Q n); [done|]. lia.
Qed.

Lemma count_delete (Q : Node -> bool) (h : gmap nat Node) i n :
  h !! i = Some n -> count Q (delete i h) = count Q h - (if Q n then 1 else 0).
Proof.
  intros Hi. unfold count. rewrite map_filter_delete, map_size_delete.
  destruct (Q n) eqn:HQ.
  - assert (Hf : filter (fun kv : nat * Node => Q kv.2 = true) h !! i = Some n)
      by (by apply map_lookup_filter_Some).
    rewrite Hf.
    destruct (size (filter (fun kv : nat * Node => Q kv.2 = true) h)) eqn:Hs.
    + apply map_size_empty_inv in Hs. rewrite Hs, lookup_empty in Hf. discriminate.
    + simpl. lia.
  - assert (Hf : filter (fun kv : nat * Node => Q kv.2 = true) h !! i = None).
    { apply map_lookup_filter_None. right. intros x Hx. simpl.
      rewrite Hi in Hx. injection Hx as <-. congruence. }
    rewrite Hf. simpl. lia.
Qed.

Lemma new_OpNode_eq opc v s :
  new_OpNode opc v s =
  (mkSt (<[currentID s := mkNode (currentID s) 1 ∅ ∅ (POp opc v)]> (heap s))
        (S (currentID s)) (NrOpNodes s + 1) (NrVarNodes s) (NrMemNodes s) (NrEdges s),
   currentID s).
Proof. unfold new_OpNode, new_OpNode_payload; unfold_ctor. by rewrite alter_insert_eq. Qed.

Lemma new_CallNode_eq ci s :
  new_CallNode ci s =
  (mkSt (<[currentID s := mkNode (currentID s) 3 ∅ ∅ (PCall Instruction_Call (Some ci) ci)]>
          (heap s))
        (S (currentID s)) (NrOpNodes s + 1) (NrVarNodes s) (NrMemNodes s) (NrEdges s),
   currentID s).
Proof. unfold new_CallNode, new_OpNode_payload; unfold_ctor. by rewrite !alter_insert_eq. Qed.

Lemma new_VarNode_eq v s :
  new_VarNode v s =
  (mkSt (<[currentID s := mkNode (currentID s) 2 ∅ ∅ (PVar v)]> (heap s))
        (S (currentID s)) (NrOpNodes s) (NrVarNodes s + 1) (NrMemNodes s) (NrEdges s),
   currentID s).
Proof. unfold new_VarNode; unfold_ctor. by rewrite alter_insert_eq. Qed.

Lemma new_MemNode_eq id s :
  new_MemNode id s =
  (mkSt (<[currentID s := mkNode (currentID s) 4 ∅ ∅ (PMem id)]> (heap s))
        (S (currentID s)) (NrOpNodes s) (NrVarNodes s) (NrMemNodes s + 1) (NrEdges s),
   currentID s).
Proof. unfold new_MemNode; unfold_ctor. by rewrite alter_insert_eq. Qed.

Lemma connect_heap s a b t na :
  heap s !! a = Some na -> successors na !! b <> Some t ->
  heap (connect a b t s) =
  alter (fun n => set_predecessors (<[a := t]> (predecessors n)) n) b
        (alter (fun n => set_successors (<[b := t]> (successors n)) n) a (heap s)).
Proof. intros Ha Hne. unfold connect. rewrite Ha, decide_False by done. reflexivity. Qed.

Lemma lookup_connect (h : gmap nat Node) a b t x :
  alter (fun n => set_predecessors (<[a := t]> (predecessors n)) n) b
        (alter (fun n => set_successors (<[b := t]> (successors n)) n) a h) !! x =
  (fun n => mkNode (ID n) (Class_ID n)
     (if decide (x = a) then <[b := t]> (successors n) else successors n)
     (if decide (x = b) then <[a := t]> (predecessors n) else predecessors n)
     (payload n)) <$> h !! x.
Proof.
  rewrite !lookup_alter.
  destruct (decide (b = x)) as [<-|Hb].
  - destruct (decide (a = b)) as [<-|Hab].
    + destruct (h !! a) as [n|]; simpl; [|done].
      rewrite !decide_True by done. destruct n; reflexivity.
    + destruct (h !! b) as [n|]; simpl; [|done].
      rewrite decide_False, decide_True by congruence. destruct n; reflexivity.
  - destruct (decide (a = x)) as [<-|Hax].
    + destruct (h !! a) as [n|]; simpl; [|done].
      rewrite decide_True, decide_False by congruence. destruct n; reflexivity.
    + destruct (h !! x) as [n|]; simpl; [|done].
      rewrite !decide_False by congruence. destruct n; reflexivity.
Qed.

Lemma symmetric_insert_fresh (h : gmap nat Node) i n :
  symmetric h -> h !! i = None -> successors n = ∅ -> predecessors n = ∅ ->
  symmetric (<[i := n]> h).
Proof.
  intros Hs Hi Hsn Hpn a b t. unfold edge_succ, edge_pred. split.
  - intros (m & Hm & Hb). rewrite lookup_insert in Hm. case_decide as Hia.
    + injection Hm as <-. rewrite Hsn, lookup_empty in Hb. discriminate.
    + destruct (proj1 (Hs a b t) (ex_intro _ m (conj Hm Hb))) as (m' & Hm' & Ha').
      exists m'. rewrite lookup_insert, decide_False; [done|]. intros ->. congruence.
  - intros (m & Hm & Ha). rewrite lookup_insert in Hm. case_decide as Hib.
    + injection Hm as <-. rewrite Hpn, lookup_empty in Ha. discriminate.
    + destruct (proj2 (Hs a b t) (ex_intro _ m (conj Hm Ha))) as (m' & Hm' & Hb').
      exists m'. rewrite lookup_insert, decide_False; [done|]. intros ->. congruence.
Qed.

Lemma symmetric_connect s a b t :
  symmetric (heap s) -> is_Some (heap s !! a) -> is_Some (heap s !! b) ->
  symmetric (heap (connect a b t s)).
Proof.
  intros Hs [na Ha] [nb Hb].
  destruct (decide (successors na !! b = Some t)) as [Hd|Hd].
  { unfold connect. rewrite Ha, decide_True by done. done. }
  rewrite (connect_heap s a b t na Ha Hd). intros x y u. unfold edge_succ, edge_pred.
  rewrite !lookup_connect. split.
  - intros (n & Hn & Hy). apply fmap_Some in Hn as (m & Hm & ->). simpl in Hy.
    destruct (decide (x = a)) as [->|Hxa].
    + rewrite lookup_insert in Hy. case_decide as Hby.
      * subst y. injection Hy as <-. eexists; split; [rewrite Hb; reflexivity|].
        simpl. rewrite decide_True by done. by rewrite lookup_insert_eq.
      * destruct (proj1 (Hs a y u) (ex_intro _ m (conj Hm Hy))) as (m' & Hm' & Hy').
        eexists; split; [rewrite Hm'; reflexivity|]. simpl.
        rewrite decide_False by congruence. done.
    + destruct (proj1 (Hs x y u) (ex_intro _ m (conj Hm Hy))) as (m' & Hm' & Hy').
      eexists; split; [rewrite Hm'; reflexivity|]. simpl.
      case_decide; [rewrite lookup_insert_ne by congruence|]; done.
  - intros (n & Hn & Hx). apply fmap_Some in Hn as (m & Hm & ->). simpl in Hx.
    destruct (decide (y = b)) as [->|Hyb].
    + rewrite lookup_insert in Hx. case_decide as Hax.
      * subst x. injection Hx as <-. eexists; split; [rewrite Ha; reflexivity|].
        simpl. rewrite decide_True by done. by rewrite lookup_insert_eq.
      * destruct (proj2 (Hs x b u) (ex_intro _ m (conj Hm Hx))) as (m' & Hm' & Hx').
        eexists; split; [rewrite Hm'; reflexivity|]. simpl.
        rewrite decide_False by congruence. done.
    + destruct (proj2 (Hs x y u) (ex_intro _ m (conj Hm Hx))) as (m' & Hm' & Hx').
      eexists; split; [rewrite Hm'; reflexivity|]. simpl.
      case_decide; [rewrite lookup_insert_ne by congruence|]; done.
Qed.

Lemma lookup_unlink (h : gmap nat Node) i x :
  delete i (unlink i <$> h) !! x = if decide (i = x) then None else unlink i <$> h !! x.
Proof. by rewrite lookup_delete, lookup_fmap. Qed.

Lemma symmetric_delete (h : gmap nat Node) i :
  symmetric h -> symmetric (delete i (unlink i <$> h)).
Proof.
  intros Hs x y u. unfold edge_succ, edge_pred. rewrite !lookup_unlink. split.
  - intros (n & Hn & Hy). case_decide as Hix; [discriminate|].
    apply fmap_Some in Hn as (m & Hm & ->). simpl in Hy.
    apply lookup_delete_Some in Hy as [Hiy Hy].
    destruct (proj1 (Hs x y u) (ex_intro _ m (conj Hm Hy))) as (m' & Hm' & Hx').
    rewrite decide_False by done. eexists; split; [rewrite Hm'; reflexivity|].
    simpl. by rewrite lookup_delete_ne.
  - intros (n & Hn & Hx). case_decide as Hiy; [discriminate|].
    apply fmap_Some in Hn as (m & Hm & ->). simpl in Hx.
    apply lookup_delete_Some in Hx as [Hix Hx].
    destruct (proj2 (Hs x y u) (ex_intro _ m (conj Hm Hx))) as (m' & Hm' & Hy').
    rewrite decide_False by done. eexists; split; [rewrite Hm'; reflexivity|].
    simpl. by rewrite lookup_delete_ne.
Qed.

Lemma count_payload (Q : Node -> bool) (h h' : gmap nat Node) :
  (forall n n', payload n = payload n' -> Q n = Q n') ->
  (forall k, payload <$> h !! k = payload <$> h' !! k) ->
  count Q h = count Q h'.
Proof.
  intros HQ Hk. apply count_ext. intros k. specialize (Hk k).
  destruct (h !! k) as [n|], (h' !! k) as [n'|]; simpl in Hk; try discriminate.
  - injection Hk as Hk. split; intros (m & Hm & Hq); injection Hm as <-.
    + exists n'. split; [done|]. by rewrite <- (HQ n n' Hk).
    + exists n. split; [done|]. by rewrite (HQ n n' Hk).
  - split; intros (m & Hm & _); discriminate.
Qed.

Ltac split_Inv := refine (conj _ (conj _ (conj (conj _ (conj _ _)) _))).

Ltac kind_payload := intros [] [] E; simpl in E; subst; reflexivity.

Lemma Inv_new s s' n :
  Inv s ->
  heap s' = <[currentID s := n]> (heap s) -> currentID s' = S (currentID s) ->
  successors n = ∅ -> predecessors n = ∅ -> Class_ID n = payload_class (payload n) ->
  NrOpNodes s' = NrOpNodes s + (if is_op_obj n then 1 else 0) ->
  NrVarNodes s' = NrVarNodes s + (if is_var_obj n then 1 else 0) ->
  NrMemNodes s' = NrMemNodes s + (if is_mem_obj n then 1 else 0) ->
  Inv s'.
Proof.
  intros (Hf & Hc & (Ho & Hv & Hm) & Hs) Hh Hid Hsn Hpn Hcn Ho' Hv' Hm'.
  assert (Hi : heap s !! currentID s = None).
  { destruct (heap s !! currentID s) eqn:E; [|done].
    specialize (Hf (currentID s) ltac:(rewrite E; eauto)). lia. }
  split_Inv.
  - intros k [x Hx]. rewrite Hh, lookup_insert in Hx. rewrite Hid.
    case_decide; [lia|]. specialize (Hf k ltac:(eauto)). lia.
  - intros k m Hk. rewrite Hh, lookup_insert in Hk. case_decide.
    + injection Hk as <-. done.
    + eauto.
  - rewrite Ho', Hh, count_insert_fresh by done. lia.
  - rewrite Hv', Hh, count_insert_fresh by done. lia.
  - rewrite Hm', Hh, count_insert_fresh by done. lia.
  - rewrite Hh. by apply symmetric_insert_fresh.
Qed.

Lemma connect_fields s a b t :
  currentID (connect a b t s) = currentID s /\ NrOpNodes (connect a b t s) = NrOpNodes s /\
  NrVarNodes (connect a b t s) = NrVarNodes s /\ NrMemNodes (connect a b t s) = NrMemNodes s.
Proof. unfold connect. destruct (heap s !! a); [case_decide|]; done. Qed.

Lemma connect_payload s a b t k :
  payload <$> heap (connect a b t s) !! k = payload <$> heap s !! k /\
  Class_ID <$> heap (connect a b t s) !! k = Class_ID <$> heap s !! k.
Proof.
  destruct (heap s !! a) as [na|] eqn:Ha.
  2:{ unfold connect. rewrite Ha. done. }
  destruct (decide (successors na !! b = Some t)) as [Hd|Hd].
  { unfold connect. rewrite Ha, decide_True by done. done. }
  rewrite (connect_heap s a b t na Ha Hd), lookup_connect.
  destruct (heap s !! k); done.
Qed.

Lemma Inv_connect s a b t :
  Inv s -> is_Some (heap s !! a) -> is_Some (heap s !! b) -> Inv (connect a b t s).
Proof.
  intros (Hf & Hc & (Ho & Hv & Hm) & Hs) Ha Hb.
  destruct (connect_fields s a b t) as (Hid & Ho' & Hv' & Hm').
  split_Inv.
  - intros k Hk. rewrite Hid. apply Hf.
    destruct (connect_payload s a b t k) as [Hp _].
    destruct Hk as [x Hx]. rewrite Hx in Hp. simpl in Hp.
    destruct (heap s !! k); [eauto|discriminate].
  - intros k n Hk. destruct (connect_payload s a b t k) as [Hp Hcl].
    rewrite Hk in Hp, Hcl. simpl in Hp, Hcl.
    destruct (heap s !! k) as [m|] eqn:E; [|discriminate].
    injection Hp as Hp. injection Hcl as Hcl. rewrite Hp, Hcl. eauto.
  - rewrite Ho', Ho. apply count_payload; [kind_payload|].
    intros k. symmetry. apply connect_payload.
  - rewrite Hv', Hv. apply count_payload; [kind_payload|].
    intros k. symmetry. apply connect_payload.
  - rewrite Hm', Hm. apply count_payload; [kind_payload|].
    intros k. symmetry. apply connect_payload.
  - by apply symmetric_connect.
Qed.

Lemma Inv_delete s i :
  Inv s -> Inv (delete_node i s).
Proof.
  intros HI. destruct (heap s !! i) as [n|] eqn:Hn.
  2:{ unfold delete_node. rewrite Hn. done. }
  destruct HI as (Hf & Hc & (Ho & Hv & Hm) & Hs).
  assert (Hcnt : forall Q, (forall n n', payload n = payload n' -> Q n = Q n') ->
            count Q (delete i (unlink i <$> heap s)) = count Q (heap s) - (if Q n then 1 else 0)).
  { intros Q HQ. rewrite <- (count_delete Q (heap s) i n Hn).
    apply count_payload; [done|]. intros k. rewrite lookup_unlink, lookup_delete.
    case_decide; [done|]. by destruct (heap s !! k). }
  assert (Hf' : forall k, is_Some (delete i (unlink i <$> heap s) !! k) -> (k < currentID s)%nat).
  { intros k [x Hx]. rewrite lookup_unlink in Hx. case_decide; [discriminate|].
    apply fmap_Some in Hx as (m & Hm' & _). apply Hf. eauto. }
  assert (Hc' : classes_ok (delete i (unlink i <$> heap s))).
  { intros k x Hx. rewrite lookup_unlink in Hx. case_decide; [discriminate|].
    apply fmap_Some in Hx as (m & Hm' & ->). simpl. eauto. }
  assert (Hs' := symmetric_delete (heap s) i Hs).
  unfold delete_node. rewrite Hn.
  destruct (payload n) eqn:Ep; split_Inv; simpl; try done;
    first [ rewrite (Hcnt is_op_obj) by kind_payload
          | rewrite (Hcnt is_var_obj) by kind_payload
          | rewrite (Hcnt is_mem_obj) by kind_payload ];
    rewrite ?Ho, ?Hv, ?Hm; unfold is_op_obj, is_var_obj, is_mem_obj; rewrite Ep; lia.
Qed.

Lemma Inv_step s s' : Inv s -> step s s' -> Inv s'.
Proof.
  intros HI Hst. destruct Hst as [s|s opc v|s ci|s v|s id|s a b t Ha Hb|s i Hi].
  - destruct HI as (Hf & Hc & Hcnt & Hs). done.
  - rewrite new_OpNode_eq. eapply Inv_new; [exact HI|reflexivity|..]; simpl; try done; lia.
  - rewrite new_CallNode_eq. eapply Inv_new; [exact HI|reflexivity|..]; simpl; try done; lia.
  - rewrite new_VarNode_eq. eapply Inv_new; [exact HI|reflexivity|..]; simpl; try done; lia.
  - rewrite new_MemNode_eq. eapply Inv_new; [exact HI|reflexivity|..]; simpl; try done; lia.
  - by apply Inv_connect.
  - by apply Inv_delete.
Qed.

Lemma Inv_reachable s : reachable s -> Inv s.
Proof.
  induction 1 as [|s s' _ IH Hst].
  - split_Inv; cbn; try done.
    + intros k [x Hx]. unfold st_init in Hx. cbn in Hx.
      rewrite lookup_empty in Hx. discriminate.
    + intros a b t. unfold edge_succ, edge_pred. split; intros (n & Hn & _);
        rewrite lookup_empty in Hn; discriminate.
  - eauto using Inv_step.
Qed.

Lemma connect_lookup_src s a b t na :
  heap s !! a = Some na -> successors na !! b <> Some t ->
  exists na', heap (connect a b t s) !! a = Some na' /\
              successors na' = <[b := t]> (successors na).
Proof.
  intros Ha Hd. rewrite (connect_heap s a b t na Ha Hd), lookup_connect, Ha. simpl.
  eexists; split; [reflexivity|]. simpl. by rewrite decide_True.
Qed.

Lemma connect_NrEdges_new s a b t na :
  heap s !! a = Some na -> successors na !! b <> Some t ->
  NrEdges (connect a b t s) = NrEdges s + 1.
Proof. intros Ha Hd. unfold connect. rewrite Ha, decide_False by done. reflexivity. Qed.

Ltac reach_demo :=
  repeat match goal with
  | |- reachable st_init => apply reach_init
  | |- reachable ?s =>
      first [ apply (reach_step demo_s4); [|apply step_graph]
            | apply (reach_step demo_s3); [|apply step_call]
            | apply (reach_step demo_s2); [|apply step_connect; vm_compute; eauto]
            | apply (reach_step demo_s1); [|apply step_op]
            | apply (reach_step demo_s0); [|apply step_var]
            | apply (reach_step st_init); [|apply step_graph] ]
  end.

(** ** Edge bookkeeping *)

(** C5: in every state reachable by constructing graphs and nodes,
    [connect] and node deletion, for all nodes A, B and every edge type T,
    A's successor map holds B with type T iff B's predecessor map holds A
    with type T. *)
Theorem edge_symmetry (s : St) :
  reachable s ->
  forall a b t, edge_succ (heap s) a b t <-> edge_pred (heap s) b a t.
Proof. intros Hr. destruct (Inv_reachable s Hr) as (_ & _ & _ & Hs). exact Hs. Qed.

Lemma edge_symmetry_witness :
  reachable demo_s3 /\
  (edge_succ (heap demo_s3) 0 1 etData <-> edge_pred (heap demo_s3) 1 0 etData).
Proof. split; [reach_demo | apply edge_symmetry; reach_demo]. Defined.

(** C6: [connect] is idempotent per (source, destination, type): a second
    identical call leaves the state unchanged, the pair carries exactly the
    entry of that type (one map entry, on both ends), and the edge counter
    grows by one for a new triple and by zero for an existing one. *)
Theorem connect_idempotent (s : St) (a b : nat) (t : edgeType) :
  reachable s -> is_Some (heap s !! a) -> is_Some (heap s !! b) ->
  connect a b t (connect a b t s) = connect a b t s /\
  edge_succ (heap (connect a b t s)) a b t /\
  edge_pred (heap (connect a b t s)) b a t /\
  (edge_succ (heap s) a b t -> NrEdges (connect a b t s) = NrEdges s) /\
  (~ edge_succ (heap s) a b t -> NrEdges (connect a b t s) = NrEdges s + 1).
Proof.
  intros Hr Hla Hlb. pose proof Hla as [na Ha].
  assert (HI' : Inv (connect a b t s)) by (apply Inv_connect; auto using Inv_reachable).
  destruct HI' as (_ & _ & _ & Hs').
  destruct (decide (successors na !! b = Some t)) as [Hd|Hd].
  - assert (E : connect a b t s = s) by (unfold connect; rewrite Ha, decide_True; done).
    assert (Hsu : edge_succ (heap s) a b t) by (exists na; done).
    rewrite E in Hs' |- *. rewrite E.
    split; [done|]. split; [done|]. split; [by apply Hs'|].
    split; [done|]. intros Hn. contradiction.
  - destruct (connect_lookup_src s a b t na Ha Hd) as (na' & Ha' & Hsa).
    assert (Hsu : edge_succ (heap (connect a b t s)) a b t).
    { exists na'. split; [done|]. rewrite Hsa. apply lookup_insert_eq. }
    split.
    { unfold connect at 1. rewrite Ha', decide_True; [done|].
      rewrite Hsa. apply lookup_insert_eq. }
    split; [done|]. split; [by apply Hs'|]. split.
    + intros (n & Hn & Hnb). rewrite Ha in Hn. injection Hn as <-. contradiction.
    + intros _. by apply (connect_NrEdges_new s a b t na).
Qed.

Lemma connect_idempotent_witness :
  (reachable demo_s2 /\ is_Some (heap demo_s2 !! 0%nat) /\ is_Some (heap demo_s2 !! 1%nat)) /\
  (connect 0 1 etData (connect 0 1 etData demo_s2) = connect 0 1 etData demo_s2 /\
   edge_succ (heap (connect 0 1 etData demo_s2)) 0 1 etData /\
   edge_pred (heap (connect 0 1 etData demo_s2)) 1 0 etData /\
   (edge_succ (heap demo_s2) 0 1 etData -> NrEdges (connect 0 1 etData demo_s2) = NrEdges demo_s2) /\
   (~ edge_succ (heap demo_s2) 0 1 etData ->
    NrEdges (connect 0 1 etData demo_s2) = NrEdges demo_s2 + 1)).
Proof.
  split; [split; [reach_demo | split; vm_compute; eauto]|].
  apply connect_idempotent; [reach_demo | vm_compute; eauto | vm_compute; eauto].
Defined.

(** ** Population and edge counters *)

(** C9 (as stated, refuted): after a second [Graph] is constructed, the
    global edge counter no longer equals the number of live edges: the
    [Graph] constructor resets [NrEdges] to 0 while the edge 0 -> 1 of the
    first graph is still live. *)
Lemma counters_consistent_counterexample :
  reachable demo_s5 /\ NrEdges demo_s5 = 0 /\ live_edges (heap demo_s5) = 1.
Proof. split; [reach_demo | split; vm_compute; reflexivity]. Qed.

(** C9 (amended): in every reachable state, with any number of [Graph]
    instances, [NrOpNodes] (which counts [CallNode] objects too),
    [NrVarNodes] and [NrMemNodes] equal the number of live nodes of each
    kind; constructing another [Graph] leaves every live node and edge in
    place and resets [NrEdges] to 0. *)
Theorem node_counters_consistent (s : St) :
  reachable s ->
  NrOpNodes s = count is_op_obj (heap s) /\
  NrVarNodes s = count is_var_obj (heap s) /\
  NrMemNodes s = count is_mem_obj (heap s) /\
  heap (graph_ctor s) = heap s /\ NrEdges (graph_ctor s) = 0.
Proof.
  intros Hr. destruct (Inv_reachable s Hr) as (_ & _ & (Ho & Hv & Hm) & _).
  repeat split; done.
Qed.

Lemma node_counters_consistent_witness :
  reachable demo_s4 /\
  NrOpNodes demo_s4 = count is_op_obj (heap demo_s4) /\
  NrVarNodes demo_s4 = count is_var_obj (heap demo_s4) /\
  NrMemNodes demo_s4 = count is_mem_obj (heap demo_s4) /\
  heap (graph_ctor demo_s4) = heap demo_s4 /\ NrEdges (graph_ctor demo_s4) = 0.
Proof. split; [reach_demo | apply node_counters_consistent; reach_demo]. Defined.

(** C10: every [CallNode] is an [OpNode]: in every reachable state the
    nodes that [CallNode::classof] accepts are accepted by
    [OpNode::classof], [OpNode::classof] accepts exactly the objects built
    by the [OpNode] constructor (plain or through [CallNode]), and
    [NrOpNodes] counts exactly the nodes [OpNode::classof] accepts, Call
    nodes included. *)
Theorem call_nodes_are_op_nodes (s : St) :
  reachable s ->
  NrOpNodes s = count OpNode_classof (heap s) /\
  forall k n, heap s !! k = Some n ->
    (CallNode_classof n = true -> OpNode_classof n = true) /\
    (is_call_obj n = true <-> CallNode_classof n = true) /\
    (is_op_obj n = true <-> OpNode_classof n = true).
Proof.
  intros Hr. destruct (Inv_reachable s Hr) as (_ & Hc & (Ho & _ & _) & _).
  assert (Hk : forall k n, heap s !! k = Some n ->
    (CallNode_classof n = true -> OpNode_classof n = true) /\
    (is_call_obj n = true <-> CallNode_classof n = true) /\
    (is_op_obj n = true <-> OpNode_classof n = true)).
  { intros k n Hn. specialize (Hc k n Hn).
    unfold CallNode_classof, OpNode_classof, is_call_obj, is_op_obj.
    rewrite Hc. destruct (payload n); simpl; repeat split; try done. }
  split; [|exact Hk].
  rewrite Ho. apply count_ext. intros k. split; intros (n & Hn & Hq); exists n;
    (split; [done|]); apply (Hk k n Hn); done.
Qed.

Lemma call_nodes_are_op_nodes_witness :
  reachable demo_s4 /\
  (NrOpNodes demo_s4 = count OpNode_classof (heap demo_s4) /\
   forall k n, heap demo_s4 !! k = Some n ->
    (CallNode_classof n = true -> OpNode_classof n = true) /\
    (is_call_obj n = true <-> CallNode_classof n = true) /\
    (is_op_obj n = true <-> OpNode_classof n = true)).
Proof. split; [reach_demo | apply call_nodes_are_op_nodes; reach_demo]. Defined.

(** ** Depth-first traversal: termination and result *)

Section DepthFirstProofs.
Local Open Scope nat_scope.
Variable adj : nat -> list nat.
Variable U : gset nat.
Hypothesis adj_U : forall u w, w ∈ adj u -> w ∈ U.

Lemma dfs_grows_refl V T P : dfs_grows adj V T V T P.
Proof.
  exists []. rewrite app_nil_r. repeat split; try set_solver.
  constructor.
Qed.

Lemma dfs_grows_trans V T V1 T1 V2 T2 P1 P2 :
  dfs_grows adj V T V1 T1 P1 -> dfs_grows adj V1 T1 V2 T2 P2 ->
  dfs_grows adj V T V2 T2 (fun x => P1 x \/ P2 x).
Proof.
  intros (D1 & -> & HN1 & Hn1 & -> & HP1 & Hc1) (D2 & -> & HN2 & Hn2 & -> & HP2 & Hc2).
  exists (D1 ++ D2). rewrite app_assoc. split; [done|]. split.
  { apply NoDup_app. split; [done|]. split; [|done].
    intros x Hx Hx2. apply (Hn2 x Hx2). set_solver. }
  split; [intros x Hx; apply elem_of_app in Hx as [Hx|Hx]; [auto|];
          specialize (Hn2 x Hx); set_solver|].
  split; [rewrite list_to_set_app_L; set_solver|].
  split; [intros x Hx; apply elem_of_app in Hx as [Hx|Hx]; auto|].
  intros x w Hx Hw. apply elem_of_app in Hx as [Hx|Hx].
  - specialize (Hc1 x w Hx Hw). set_solver.
  - exact (Hc2 x w Hx Hw).
Qed.

Lemma dfs_grows_mono V T V' T' (P Q : nat -> Prop) :
  (forall x, P x -> Q x) -> dfs_grows adj V T V' T' P -> dfs_grows adj V T V' T' Q.
Proof. intros HPQ (D & ? & ? & ? & ? & HP & ?). exists D. naive_solver. Qed.

Lemma dfs_grows_sub V T V' T' P : dfs_grows adj V T V' T' P -> V ⊆ V'.
Proof. intros (D & _ & _ & _ & -> & _). set_solver. Qed.

Lemma dfs_fold_spec (f : nat) visit :
  (forall u V T, u ∈ U -> size (U ∖ V) <= f ->
     exists V' T', visit u (V, T) = Some (V', T') /\ u ∈ V' /\
                   dfs_grows adj V T V' T' (reach adj u)) ->
  forall ws V T, (forall w, w ∈ ws -> w ∈ U) -> size (U ∖ V) <= f ->
  exists V' T', dfs_fold visit ws (V, T) = Some (V', T') /\
                (forall w, w ∈ ws -> w ∈ V') /\
                dfs_grows adj V T V' T' (fun x => exists w, w ∈ ws /\ reach adj w x).
Proof.
  intros Hvisit ws. induction ws as [|w ws IH]; intros V T Hws Hsz.
  - exists V, T. split; [done|]. split; [intros w Hw; inversion Hw|].
    apply dfs_grows_refl.
  - destruct (Hvisit w V T) as (V1 & T1 & Hv & Hw1 & Hg1); [apply Hws; left|done|].
    assert (Hsub := dfs_grows_sub _ _ _ _ _ Hg1).
    destruct (IH V1 T1) as (V2 & T2 & Hf & Hws2 & Hg2).
    { intros w' Hw'. apply Hws. by right. }
    { etransitivity; [|exact Hsz]. apply subseteq_size. set_solver. }
    assert (Hsub2 := dfs_grows_sub _ _ _ _ _ Hg2).
    exists V2, T2. simpl. rewrite Hv. split; [done|]. split.
    + intros w' Hw'. apply elem_of_cons in Hw' as [->|Hw']; [set_solver|auto].
    + eapply dfs_grows_mono; [|exact (dfs_grows_trans _ _ _ _ _ _ _ _ Hg1 Hg2)].
      intros x [Hx|(w' & Hw' & Hx)]; [exists w; split; [left|done]|].
      exists w'. split; [by right|done].
Qed.

Lemma dfsVisit_spec (f : nat) :
  forall u V T, u ∈ U -> size (U ∖ V) <= f ->
  exists V' T', dfsVisit adj f u (V, T) = Some (V', T') /\ u ∈ V' /\
                dfs_grows adj V T V' T' (reach adj u).
Proof.
  induction f as [|f IH]; intros u V T HuU Hsz; simpl.
  - case_decide as HuV.
    + exists V, T. split; [done|]. split; [done|]. apply dfs_grows_refl.
    + exfalso. assert (Hs1 : size ({[u]} : gset nat) <= size (U ∖ V))
        by (apply subseteq_size; set_solver).
      rewrite size_singleton in Hs1. lia.
  - case_decide as HuV.
    + exists V, T. split; [done|]. split; [done|]. apply dfs_grows_refl.
    + destruct (dfs_fold_spec f (dfsVisit adj f) IH (adj u) ({[u]} ∪ V) (T ++ [u]))
        as (V' & T' & Hf & Hadj & D & -> & HN & Hn & -> & HP & Hc).
      { intros w Hw. by apply (adj_U u). }
      { assert (size (U ∖ ({[u]} ∪ V)) < size (U ∖ V)) by (apply subset_size; set_solver).
        lia. }
      exists ({[u]} ∪ V ∪ list_to_set D), (T ++ [u] ++ D).
      rewrite <- app_assoc in Hf. split; [exact Hf|]. split; [set_solver|].
      exists (u :: D). split; [done|]. split.
      { constructor; [|done]. intros Hu. apply (Hn u Hu). set_solver. }
      split; [intros x Hx; apply elem_of_cons in Hx as [->|Hx]; [done|];
              specialize (Hn x Hx); set_solver|].
      split; [simpl; set_solver|].
      split.
      * intros x Hx. apply elem_of_cons in Hx as [->|Hx]; [constructor|].
        destruct (HP x Hx) as (w & Hw & Hwx). by apply (reach_next adj u w x).
      * intros x w Hx Hw. apply elem_of_cons in Hx as [->|Hx]; [auto|].
        exact (Hc x w Hx Hw).
Qed.

End DepthFirstProofs.

Lemma adj_dir_univ (h : gmap nat Node) fw u w : w ∈ adj_dir h fw u -> w ∈ univ h.
Proof.
  unfold adj_dir, univ. intros Hw. apply elem_of_union_r. apply elem_of_union_list.
  assert (Hn : exists n, h !! u = Some n /\ (w ∈ dom (successors n) ∪ dom (predecessors n))).
  { destruct fw; unfold succ_list, pred_list in Hw; destruct (h !! u) as [n|];
      try (inversion Hw; fail); exists n; split; try done;
      apply list_elem_of_fmap in Hw as ([k t] & -> & Hk);
      apply elem_of_map_to_list in Hk; simpl;
      [apply elem_of_union_l | apply elem_of_union_r]; apply elem_of_dom; eauto. }
  destruct Hn as (n & Hu & Hw').
  exists (dom (successors n) ∪ dom (predecessors n)). split; [|done].
  apply list_elem_of_fmap. exists (u, n). split; [done|]. by apply elem_of_map_to_list.
Qed.

Lemma reach_closed (adj : nat -> list nat) (S : gset nat) :
  (forall x w, x ∈ S -> w ∈ adj x -> w ∈ S) ->
  forall u x, reach adj u x -> u ∈ S -> x ∈ S.
Proof. intros Hc u x Hr. induction Hr as [x|x y z Hy Hr IH]; intros Hx; eauto. Qed.

(** The run of [getDepValues] from a set of source nodes: it completes, it
    expands each node at most once, and it visits exactly the nodes
    reachable from the sources. *)
Lemma getDepValues_run_spec (h : gmap nat Node) (srcs : gset nat) (fw : bool) :
  exists V T, getDepValues_run h srcs fw = Some (V, T) /\ NoDup T /\
    V = list_to_set T /\
    (forall x, x ∈ V <-> exists n, n ∈ srcs /\ reach (adj_dir h fw) n x).
Proof.
  set (U := univ h ∪ srcs).
  assert (HU : forall u w, w ∈ adj_dir h fw u -> w ∈ U).
  { intros u w Hw. apply elem_of_union_l. by apply (adj_dir_univ h fw u). }
  destruct (dfs_fold_spec (adj_dir h fw) U HU (size U) _
              (dfsVisit_spec (adj_dir h fw) U HU (size U)) (elements srcs) ∅ [])
    as (V & T & Hrun & Hsrc & D & -> & HN & _ & -> & HP & Hc).
  { intros w Hw. apply elem_of_elements in Hw. set_solver. }
  { apply subseteq_size. set_solver. }
  exists (∅ ∪ list_to_set D), ([] ++ D). split; [exact Hrun|]. simpl.
  split; [done|]. split; [set_solver|].
  intros x. split.
  - intros Hx. assert (Hx' : x ∈ D) by set_solver.
    destruct (HP x Hx') as (w & Hw & Hr). exists w. split; [|done].
    by apply elem_of_elements in Hw.
  - intros (n & Hn & Hr). eapply (reach_closed (adj_dir h fw)); [|exact Hr|].
    + intros y w Hy Hw. apply (Hc y w); [|done]. set_solver.
    + apply Hsrc. by apply elem_of_elements.
Qed.

Lemma elem_of_findNodes (G : Graph) (vs : gset nat) n :
  n ∈ findNodes G vs <-> exists v, v ∈ vs /\ findNode G v = Some n.
Proof.
  unfold findNodes. rewrite elem_of_list_to_set, list_elem_of_omap.
  setoid_rewrite elem_of_elements. naive_solver.
Qed.

(** ** Multi-source reachability *)

(** C1: [getDepValues] completes on every input and returns exactly the
    nodes reachable, along successor edges ([forward]) or predecessor edges
    (backward), from the nodes of the source values; the node of every
    source value that has one is in the result, and values without a node
    contribute nothing. *)
Theorem getDepValues_correct (G : Graph) (h : gmap nat Node) (sources : gset nat)
    (forward : bool) :
  is_Some (getDepValues_run h (findNodes G sources) forward) /\
  (forall x, x ∈ getDepValues G h sources forward <->
     exists v n, v ∈ sources /\ findNode G v = Some n /\ reach (adj_dir h forward) n x) /\
  (forall v n, v ∈ sources -> findNode G v = Some n -> n ∈ getDepValues G h sources forward).
Proof.
  destruct (getDepValues_run_spec h (findNodes G sources) forward)
    as (V & T & Hrun & _ & _ & HV).
  unfold getDepValues. rewrite Hrun. split; [eauto|]. split.
  - intros x. rewrite HV. setoid_rewrite elem_of_findNodes. naive_solver.
  - intros v n Hv Hn. apply HV. exists n. split; [|constructor].
    apply elem_of_findNodes. eauto.
Qed.

(** ** Connecting subgraph *)

Lemma elem_of_succ_list (h : gmap nat Node) u w :
  w ∈ succ_list h u <-> exists t, edge_succ h u w t.
Proof.
  unfold succ_list, edge_succ. destruct (h !! u) as [n|] eqn:Hu.
  - rewrite list_elem_of_fmap. split.
    + intros ([k t] & -> & Hk). apply elem_of_map_to_list in Hk. eauto.
    + intros (t & m & Hm & Ht). injection Hm as <-. exists (w, t). split; [done|].
      by apply elem_of_map_to_list.
  - split; [intros Hw; inversion Hw|]. intros (t & m & Hm & _). discriminate.
Qed.

Lemma elem_of_pred_list (h : gmap nat Node) u w :
  w ∈ pred_list h u <-> exists t, edge_pred h u w t.
Proof.
  unfold pred_list, edge_pred. destruct (h !! u) as [n|] eqn:Hu.
  - rewrite list_elem_of_fmap. split.
    + intros ([k t] & -> & Hk). apply elem_of_map_to_list in Hk. eauto.
    + intros (t & m & Hm & Ht). injection Hm as <-. exists (w, t). split; [done|].
      by apply elem_of_map_to_list.
  - split; [intros Hw; inversion Hw|]. intros (t & m & Hm & _). discriminate.
Qed.

Lemma reach_snoc (adj : nat -> list nat) x y z :
  reach adj x y -> z ∈ adj y -> reach adj x z.
Proof.
  induction 1 as [x|x y' y Hy Hr IH]; intros Hz.
  - apply (reach_next adj x z z); [done|constructor].
  - apply (reach_next adj x y' z); auto.
Qed.

Lemma reach_pred_succ (h : gmap nat Node) d x :
  symmetric h -> reach (pred_list h) d x -> reach (succ_list h) x d.
Proof.
  intros Hs. induction 1 as [x|d y x Hy Hr IH]; [constructor|].
  apply (reach_snoc _ x y d IH). apply elem_of_succ_list.
  apply elem_of_pred_list in Hy as (t & Ht). exists t. by apply Hs.
Qed.

Lemma reach_succ_pred (h : gmap nat Node) x d :
  symmetric h -> reach (succ_list h) x d -> reach (pred_list h) d x.
Proof.
  intros Hs. induction 1 as [x|x y d Hy Hr IH]; [constructor|].
  apply (reach_snoc _ d y x IH). apply elem_of_pred_list.
  apply elem_of_succ_list in Hy as (t & Ht). exists t. by apply Hs.
Qed.

Lemma reach_succ_live (h : gmap nat Node) s x :
  symmetric h -> is_Some (h !! s) -> reach (succ_list h) s x -> is_Some (h !! x).
Proof.
  intros Hs Hl Hr. induction Hr as [x|x y z Hy Hr IH]; [done|]. apply IH.
  apply elem_of_succ_list in Hy as (t & Ht). apply Hs in Ht as (n & Hn & _). eauto.
Qed.

Lemma lookup_induced (h : gmap nat Node) K x n :
  induced h K !! x = Some n <->
  x ∈ K /\ exists n0, h !! x = Some n0 /\
    n = mkNode (ID n0) (Class_ID n0)
          (filter (fun kv : nat * edgeType => kv.1 ∈ K) (successors n0))
          (filter (fun kv : nat * edgeType => kv.1 ∈ K) (predecessors n0))
          (payload n0).
Proof.
  unfold induced. rewrite lookup_fmap, fmap_Some. setoid_rewrite map_lookup_filter_Some.
  naive_solver.
Qed.

Lemma elem_of_dom_induced (h : gmap nat Node) K x :
  x ∈ dom (induced h K) <-> x ∈ K /\ is_Some (h !! x).
Proof.
  rewrite elem_of_dom. split.
  - intros [n Hn]. apply lookup_induced in Hn as (HK & n0 & Hn0 & _). eauto.
  - intros (HK & n0 & Hn0). eexists. apply lookup_induced. eauto.
Qed.

Lemma edge_succ_induced (h : gmap nat Node) K x y t :
  edge_succ (induced h K) x y t <-> x ∈ K /\ y ∈ K /\ edge_succ h x y t.
Proof.
  unfold edge_succ. setoid_rewrite lookup_induced. split.
  - intros (n & (HK & n0 & Hn0 & ->) & Hy). simpl in Hy.
    apply map_lookup_filter_Some in Hy as [Hy HyK]. simpl in HyK. eauto.
  - intros (HK & HyK & n0 & Hn0 & Hy). eexists. split; [split; [done|]; eauto|].
    simpl. by apply map_lookup_filter_Some.
Qed.

Lemma edge_pred_induced (h : gmap nat Node) K y x t :
  edge_pred (induced h K) y x t <-> y ∈ K /\ x ∈ K /\ edge_pred h y x t.
Proof.
  unfold edge_pred. setoid_rewrite lookup_induced. split.
  - intros (n & (HK & n0 & Hn0 & ->) & Hx). simpl in Hx.
    apply map_lookup_filter_Some in Hx as [Hx HxK]. simpl in HxK. eauto.
  - intros (HK & HxK & n0 & Hn0 & Hx). eexists. split; [split; [done|]; eauto|].
    simpl. by apply map_lookup_filter_Some.
Qed.

(** C2: for live nodes [s] and [d] of the values [src] and [dst] (edge maps
    symmetric, as in every reachable state), [generateSubGraph] keeps
    exactly the nodes on some directed path from [s] to [d], which are the
    nodes forward-reachable from [s] and backward-reachable from [d], with
    exactly the edges of the graph among them and the payload of each. *)
Theorem generateSubGraph_correct (G : Graph) (h : gmap nat Node) (src dst s d : nat) :
  symmetric h -> findNode G src = Some s -> findNode G dst = Some d ->
  is_Some (h !! s) -> is_Some (h !! d) ->
  (forall x, x ∈ dom (generateSubGraph G h src dst) <->
     reach (succ_list h) s x /\ reach (succ_list h) x d) /\
  (forall x, x ∈ dom (generateSubGraph G h src dst) <->
     reach (succ_list h) s x /\ reach (pred_list h) d x) /\
  (forall x y t, edge_succ (generateSubGraph G h src dst) x y t <->
     x ∈ dom (generateSubGraph G h src dst) /\ y ∈ dom (generateSubGraph G h src dst) /\
     edge_succ h x y t) /\
  (forall x y t, edge_pred (generateSubGraph G h src dst) y x t <->
     y ∈ dom (generateSubGraph G h src dst) /\ x ∈ dom (generateSubGraph G h src dst) /\
     edge_pred h y x t) /\
  (forall x n, generateSubGraph G h src dst !! x = Some n ->
     exists n0, h !! x = Some n0 /\ payload n = payload n0).
Proof.
  intros Hs Hsrc Hdst Hls Hld.
  destruct (getDepValues_run_spec h {[s]} true) as (F & TF & HF & _ & _ & HFx).
  destruct (getDepValues_run_spec h {[d]} false) as (B & TB & HB & _ & _ & HBx).
  unfold generateSubGraph. rewrite Hsrc, Hdst, HF, HB.
  assert (HK : forall x, x ∈ F ∩ B <-> reach (succ_list h) s x /\ reach (pred_list h) d x).
  { intros x. rewrite elem_of_intersection, HFx, HBx. simpl.
    setoid_rewrite elem_of_singleton. naive_solver. }
  assert (Hdom : forall x, x ∈ dom (induced h (F ∩ B)) <->
                 reach (succ_list h) s x /\ reach (pred_list h) d x).
  { intros x. rewrite elem_of_dom_induced, HK. split; [naive_solver|].
    intros [H1 H2]. split; [done|]. by apply (reach_succ_live h s x). }
  split; [|split; [exact Hdom|split; [|split]]].
  - intros x. rewrite Hdom. split; intros [H1 H2]; split; try done.
    + by apply reach_pred_succ.
    + by apply reach_succ_pred.
  - intros x y t. rewrite edge_succ_induced, !elem_of_dom_induced. split.
    + intros (Hx & Hy & He). split; [split; [done|]|split; [split; [done|]|done]].
      * destruct He as (n & Hn & _). eauto.
      * apply Hs in He as (n & Hn & _). eauto.
    + intros ((Hx & _) & (Hy & _) & He). done.
  - intros x y t. rewrite edge_pred_induced, !elem_of_dom_induced. split.
    + intros (Hy & Hx & He). split; [split; [done|]|split; [split; [done|]|done]].
      * destruct He as (n & Hn & _). eauto.
      * apply Hs in He as (n & Hn & _). eauto.
    + intros ((Hy & _) & (Hx & _) & He). done.
  - intros x n Hn. apply lookup_induced in Hn as (_ & n0 & Hn0 & ->). eauto.
Qed.

Lemma generateSubGraph_correct_witness :
  symmetric (heap demo_s3) /\ findNode demo_G 7 = Some 0%nat /\
  findNode demo_G 9 = Some 1%nat /\
  (1%nat ∈ dom (generateSubGraph demo_G (heap demo_s3) 7 9) <->
     reach (succ_list (heap demo_s3)) 0 1 /\ reach (succ_list (heap demo_s3)) 1 1).
Proof.
  assert (Hs : symmetric (heap demo_s3)).
  { destruct (Inv_reachable demo_s3) as (_ & _ & _ & H); [reach_demo | exact H]. }
  split; [exact Hs | split; [reflexivity | split; [reflexivity |]]].
  destruct (generateSubGraph_correct demo_G (heap demo_s3) 7 9 0 1 Hs eq_refl eq_refl)
    as [H _]; [vm_compute; eauto | vm_compute; eauto | exact (H 1%nat)].
Defined.

(** ** Breadth-first traversal: proofs *)

Section BreadthFirstProofs.
Local Open Scope nat_scope.
Variables (h : gmap nat Node) (skip : bool) (t : nat).

Lemma bfs_visit_spec u r ws V acc :
  exists N, bfs_visit h skip u r ws (V, acc) = (V ∪ list_to_set (b_node <$> N), acc ++ N) /\
    NoDup (b_node <$> N) /\ (forall x, x ∈ b_node <$> N -> x ∉ V) /\
    (forall e, e ∈ N -> b_parent e = Some u /\ b_node e ∈ ws /\
                        b_dist e = (r + hop_cost h skip (b_node e))%Z) /\
    (forall w, w ∈ ws -> w ∈ V ∪ list_to_set (b_node <$> N)).
Proof.
  revert V acc. induction ws as [|w ws IH]; intros V acc; simpl.
  - exists []. simpl. rewrite app_nil_r. split; [f_equal; set_solver|].
    split; [constructor|]. split; [set_solver|]. split; [set_solver|]. set_solver.
  - case_decide as Hw.
    + destruct (IH V acc) as (N & -> & HN & Hf & Hp & Hc). exists N.
      split; [done|]. split; [done|]. split; [done|].
      split; [|set_solver]. intros e He. destruct (Hp e He) as (? & ? & ?).
      split_and!; [done|apply elem_of_cons; by right|done].
    + set (e := mkEntry w (Some u) (r + hop_cost h skip w)).
      destruct (IH ({[w]} ∪ V) (acc ++ [e])) as (N & -> & HN & Hf & Hp & Hc).
      exists (e :: N). simpl. split.
      { f_equal; [set_solver|]. by rewrite <- app_assoc. }
      split; [constructor; [intros Hin; apply (Hf w Hin); set_solver|done]|].
      split; [intros x Hx; apply elem_of_cons in Hx as [->|Hx]; [done|]; specialize (Hf x Hx); set_solver|].
      split; [|set_solver].
      intros e' He'. apply elem_of_cons in He' as [->|He'].
      * simpl. split_and!; [done|apply elem_of_cons; by left|done].
      * destruct (Hp e' He') as (? & ? & ?). split_and!; [done|apply elem_of_cons; by right|done].
Qed.

Lemma bfs_expand_spec F V acc :
  exists N, bfs_expand h skip F (V, acc) = (V ∪ list_to_set (b_node <$> N), acc ++ N) /\
    NoDup (b_node <$> N) /\ (forall x, x ∈ b_node <$> N -> x ∉ V) /\
    (forall e, e ∈ N -> exists e', e' ∈ F /\ b_parent e = Some (b_node e') /\
       b_node e ∈ pred_list h (b_node e') /\
       b_dist e = (b_dist e' + hop_cost h skip (b_node e))%Z) /\
    (forall e' w, e' ∈ F -> w ∈ pred_list h (b_node e') -> w ∈ V ∪ list_to_set (b_node <$> N)).
Proof.
  revert V acc. induction F as [|e F IH]; intros V acc; simpl.
  - exists []. simpl. rewrite app_nil_r. split; [f_equal; set_solver|].
    split; [constructor|]. split; [set_solver|]. split; [set_solver|]. set_solver.
  - destruct (bfs_visit_spec (b_node e) (b_dist e) (pred_list h (b_node e)) V acc)
      as (N1 & -> & HN1 & Hf1 & Hp1 & Hc1).
    destruct (IH (V ∪ list_to_set (b_node <$> N1)) (acc ++ N1)) as (N2 & -> & HN2 & Hf2 & Hp2 & Hc2).
    exists (N1 ++ N2). rewrite fmap_app. split.
    { f_equal; [rewrite list_to_set_app_L; set_solver|]. by rewrite <- app_assoc. }
    split; [apply NoDup_app; split_and!; [done| |done]; intros x Hx1 Hx2; apply (Hf2 x Hx2); set_solver|].
    split; [intros x Hx; apply elem_of_app in Hx as [Hx|Hx]; [by apply Hf1|]; specialize (Hf2 x Hx); set_solver|].
    split.
    + intros e' He'. apply elem_of_app in He' as [He'|He'].
      * destruct (Hp1 e' He') as (? & ? & ?). exists e. split_and!; [apply elem_of_cons; by left|..]; done.
      * destruct (Hp2 e' He') as (e'' & ? & ?). exists e''. split; [apply elem_of_cons; by right|done].
    + intros e' w He' Hw. rewrite list_to_set_app_L. apply elem_of_cons in He' as [->|He'].
      * specialize (Hc1 w Hw). set_solver.
      * specialize (Hc2 e' w He' Hw). set_solver.
Qed.

Lemma walk_0_inv x : walk h t 0 x -> x = t.
Proof. inversion 1. done. Qed.

Lemma walk_S_inv k x : walk h t (S k) x -> exists y, walk h t k y /\ x ∈ pred_list h y.
Proof. inversion 1. eauto. Qed.

Lemma min_dist_unique x i j : min_dist h t x i -> min_dist h t x j -> i = j.
Proof.
  intros [Hi Hi'] [Hj Hj']. destruct (Nat.lt_total i j) as [Hlt|[?|Hlt]]; [|done|].
  - by destruct (Hj' i Hlt).
  - by destruct (Hi' j Hlt).
Qed.

Lemma pred_list_univ u w : w ∈ pred_list h u -> w ∈ univ h.
Proof. intros Hw. by apply (adj_dir_univ h false u w). Qed.

Lemma bfs_inv_init : bfs_inv h skip t 0 {[t]} [mkEntry t None 0].
Proof.
  unfold bfs_inv, level_ok. split_and!.
  - simpl. constructor; [set_solver|constructor].
  - intros x. simpl. rewrite list_elem_of_singleton. split.
    + intros ->. split; [constructor|lia].
    + intros [Hw _]. by apply walk_0_inv.
  - intros e He. apply list_elem_of_singleton in He as ->. constructor.
  - intros e He. by apply list_elem_of_singleton in He as ->.
  - set_solver.
  - intros x. rewrite elem_of_singleton. split.
    + intros ->. exists 0. split; [lia|constructor].
    + intros (j & Hj & Hw). assert (j = 0) as -> by lia. by apply walk_0_inv.
  - intros x Hx Hn. exfalso. apply Hn. simpl. set_solver.
  - intros y x Hy Hn. exfalso. apply Hn. simpl. set_solver.
Qed.

Lemma bfs_inv_step k V F :
  bfs_inv h skip t k V F ->
  exists N, bfs_expand h skip F (V, []) = (V ∪ list_to_set (b_node <$> N), N) /\
    bfs_inv h skip t (S k) (V ∪ list_to_set (b_node <$> N)) N /\
    (forall x, x ∈ b_node <$> N -> x ∉ V).
Proof.
  intros (HF & HU & HA & HA2 & HCl). destruct HF as (HFnd & HFmd & HFc & HFp).
  destruct (bfs_expand_spec F V []) as (N & Heq & HN & Hf & Hp & Hc).
  exists N. rewrite Heq. split; [done|]. split; [|done].
  set (V' := V ∪ list_to_set (b_node <$> N)).
  assert (HFw : forall e', e' ∈ F -> walk h t k (b_node e')).
  { intros e' He'. apply (HFmd (b_node e')). apply list_elem_of_fmap. eauto. }
  assert (Hwalk : forall x, x ∈ b_node <$> N -> walk h t (S k) x).
  { intros x Hx. apply list_elem_of_fmap in Hx as (e & -> & He).
    destruct (Hp e He) as (e' & He' & _ & Hpred & _).
    apply walk_S with (b_node e'); [by apply HFw|done]. }
  assert (Hcov : forall x, walk h t (S k) x -> x ∈ V').
  { intros x Hx. apply walk_S_inv in Hx as (y & Hy & Hxy).
    destruct (decide (y ∈ b_node <$> F)) as [HyF|HyF].
    - apply list_elem_of_fmap in HyF as (e' & -> & He'). by apply (Hc e').
    - assert (HyV : y ∈ V) by (apply HA; eauto).
      destruct (HA2 y HyV HyF) as (j & Hj & Hwj).
      assert (x ∈ V) by (apply HA; exists (S j); split; [lia|by apply walk_S with y]).
      unfold V'. set_solver. }
  unfold bfs_inv, level_ok. split_and!.
  - done.
  - intros x. split.
    + intros Hx. split; [by apply Hwalk|]. intros j Hj Hwj.
      apply (Hf x Hx). apply HA. exists j. split; [lia|done].
    + intros [Hx Hmin]. pose proof (Hcov x Hx) as Hx'. unfold V' in Hx'.
      apply elem_of_union in Hx' as [HxV|HxN].
      * exfalso. apply HA in HxV as (j & Hj & Hwj). apply (Hmin j); [lia|done].
      * by apply elem_of_list_to_set in HxN.
  - intros e He. destruct (Hp e He) as (e' & He' & _ & Hpred & ->).
    apply walkc_S with (b_node e'); [by apply HFc|done].
  - intros e He. destruct (Hp e He) as (e' & He' & Hpar & Hpred & _).
    exists (b_node e'). split_and!; [done|done|]. apply HFmd, list_elem_of_fmap. eauto.
  - unfold V'. intros x Hx. apply elem_of_union in Hx as [Hx|Hx]; [by apply HU|].
    apply elem_of_list_to_set, list_elem_of_fmap in Hx as (e & -> & He).
    destruct (Hp e He) as (e' & _ & _ & Hpred & _).
    apply elem_of_union_l. by apply (pred_list_univ (b_node e')).
  - intros x. unfold V'. rewrite elem_of_union, elem_of_list_to_set. split.
    + intros [HxV|HxN].
      * apply HA in HxV as (j & Hj & Hw). exists j. split; [lia|done].
      * exists (S k). split; [lia|by apply Hwalk].
    + intros (j & Hj & Hw). destruct (decide (j = S k)) as [->|Hne].
      * pose proof (Hcov x Hw) as Hx. unfold V' in Hx.
        apply elem_of_union in Hx as [Hx|Hx]; [by left|right].
        by apply elem_of_list_to_set in Hx.
      * left. apply HA. exists j. split; [lia|done].
  - intros x Hx HxN. unfold V' in Hx.
    apply elem_of_union in Hx as [HxV|HxN']; [|by apply elem_of_list_to_set in HxN'].
    apply HA in HxV as (j & Hj & Hw). exists j. split; [lia|done].
  - intros y x Hy HyN Hxy. unfold V' in Hy.
    apply elem_of_union in Hy as [HyV|HyN']; [|by apply elem_of_list_to_set in HyN'].
    destruct (decide (y ∈ b_node <$> F)) as [HyF|HyF].
    + apply list_elem_of_fmap in HyF as (e' & -> & He'). by apply (Hc e').
    + unfold V'. apply elem_of_union_l. by apply (HCl y).
Qed.

Lemma bfs_inv_done k V : bfs_inv h skip t k V [] -> forall j x, walk h t j x -> x ∈ V.
Proof.
  intros (_ & _ & HA & _ & HCl) j x Hw.
  induction Hw as [|j y x Hw IHw Hxy].
  - apply HA. exists 0. split; [lia|constructor].
  - apply (HCl y x IHw); [simpl; set_solver|done].
Qed.

Lemma bfs_levels_spec fuel : forall k V F,
  bfs_inv h skip t k V F -> (F <> [] -> size (univ h ∪ {[t]}) < size V + fuel) ->
  exists L, bfs_levels h skip fuel V F = Some L /\
    (forall i G, L !! i = Some G -> G <> [] /\ level_ok h skip t (k + i) G) /\
    (forall j x, walk h t j x -> (x ∈ V /\ x ∉ b_node <$> F) \/
       exists i G, L !! i = Some G /\ x ∈ b_node <$> G).
Proof.
  induction fuel as [|f IH]; intros k V F HI Hsz;
    (destruct F as [|e F'];
     [exists []; split; [reflexivity|];
      split; [intros i G HG; by rewrite lookup_nil in HG|];
      intros j x Hw; left; split; [by apply (bfs_inv_done k V HI j)|simpl; set_solver]|]).
  - exfalso. destruct HI as (_ & HU & _). apply subseteq_size in HU.
    specialize (Hsz ltac:(done)). lia.
  - cbn [bfs_levels]. destruct (bfs_inv_step k V (e :: F') HI) as (N & Heq & HI' & Hfresh).
    rewrite Heq. simpl.
    destruct (IH (S k) _ N HI') as (L & HL & Hlev & Hcomp).
    { intros HN. destruct N as [|e' N]; [done|].
      assert (size V < size (V ∪ list_to_set (b_node <$> e' :: N))).
      { apply subset_size. split; [set_solver|]. intros Hsub.
        apply (Hfresh (b_node e')); [simpl; set_solver|]. apply Hsub. simpl. set_solver. }
      specialize (Hsz ltac:(done)). lia. }
    rewrite HL. exists ((e :: F') :: L). split; [done|]. split.
    + intros i G HG. destruct i as [|i]; simpl in HG.
      * injection HG as <-. split; [done|]. rewrite Nat.add_0_r. apply HI.
      * destruct (Hlev i G HG) as [HG' Hok]. split; [done|].
        by replace (k + S i) with (S k + i) by lia.
    + intros j x Hw. destruct (Hcomp j x Hw) as [[HxV HxN]|(i & G & HG & HxG)].
      * apply elem_of_union in HxV as [HxV|HxN']; [|by apply elem_of_list_to_set in HxN'].
        destruct (decide (x ∈ b_node <$> e :: F')) as [HxF|HxF].
        -- right. exists 0, (e :: F'). done.
        -- left. done.
      * right. exists (S i), G. done.
Qed.

Lemma bfs_run_spec :
  exists L, bfs_run h skip t = Some L /\
    (forall i G, L !! i = Some G -> G <> [] /\ level_ok h skip t i G) /\
    (forall j x, walk h t j x -> exists i G, L !! i = Some G /\ x ∈ b_node <$> G).
Proof.
  unfold bfs_run.
  destruct (bfs_levels_spec (size (univ h ∪ {[t]})) 0 {[t]} [mkEntry t None 0] bfs_inv_init)
    as (L & HL & Hlev & Hcomp).
  { intros _. rewrite size_singleton. lia. }
  exists L. split; [done|]. split; [exact Hlev|].
  intros j x Hw. destruct (Hcomp j x Hw) as [[Hx Hn]|?]; [|done].
  exfalso. apply Hn. apply elem_of_singleton in Hx as ->. simpl. set_solver.
Qed.

End BreadthFirstProofs.

Section LevelLemmas.
Local Open Scope nat_scope.

Lemma elem_of_concat_lookup {A} (L : list (list A)) y :
  y ∈ concat L <-> exists i G, L !! i = Some G /\ y ∈ G.
Proof.
  induction L as [|G L IH]; simpl.
  - split; [intros Hy; inversion Hy|]. intros (i & G & HG & _). by rewrite lookup_nil in HG.
  - rewrite elem_of_app, IH. split.
    + intros [Hy|(i & G' & HG' & Hy)]; [exists 0, G; done|exists (S i), G'; done].
    + intros ([|i] & G' & HG' & Hy); simpl in HG'; [injection HG' as ->; by left|right; eauto].
Qed.

Lemma elem_of_concat_nodes (L : list (list bfs_entry)) x :
  x ∈ b_node <$> concat L <-> exists i G, L !! i = Some G /\ x ∈ b_node <$> G.
Proof.
  rewrite list_elem_of_fmap. setoid_rewrite elem_of_concat_lookup.
  setoid_rewrite list_elem_of_fmap. naive_solver.
Qed.

Lemma find_app {A} (f : A -> bool) l1 l2 :
  List.find f (l1 ++ l2) = match List.find f l1 with Some x => Some x | None => List.find f l2 end.
Proof. induction l1 as [|a l1 IH]; simpl; [done|]. by destruct (f a). Qed.

(** The first entry [find] meets in the concatenated levels lies in the
    first level holding one. *)
Lemma find_concat_levels (f : bfs_entry -> bool) (L : list (list bfs_entry)) e :
  List.find f (concat L) = Some e ->
  exists i G, L !! i = Some G /\ e ∈ G /\ f e = true /\
    forall i' G' e', (i' < i)%nat -> L !! i' = Some G' -> e' ∈ G' -> f e' = false.
Proof.
  induction L as [|G L IH]; simpl; [discriminate|].
  rewrite find_app. destruct (List.find f G) as [e0|] eqn:HG.
  - intros [= <-]. apply find_some in HG as [Hin Hf].
    exists 0%nat, G. split_and!; [done|by apply list_elem_of_In|done|lia].
  - intros Hfind. destruct (IH Hfind) as (i & G' & HG' & He & Hf & Hbefore).
    exists (S i), G'. split_and!; [done|done|done|].
    intros [|i'] G'' e' Hi' HG'' He'; simpl in HG''.
    + injection HG'' as <-. apply (find_none f G HG e'). by apply list_elem_of_In.
    + apply (Hbefore i' G'' e'); [lia|done|done].
Qed.

Lemma levels_length (L : list (list bfs_entry)) :
  (forall i G, L !! i = Some G -> G <> []) -> (length L <= length (concat L))%nat.
Proof.
  induction L as [|G L IH]; intros HL; simpl; [lia|].
  rewrite length_app. pose proof (HL 0%nat G eq_refl) as HG.
  assert (length L <= length (concat L))%nat by (apply IH; intros i G' HG'; by apply (HL (S i))).
  destruct G; [done|simpl; lia].
Qed.

Lemma levels_nodup (h : gmap nat Node) (skip : bool) (t : nat) (L : list (list bfs_entry)) :
  forall k, (forall i G, L !! i = Some G -> level_ok h skip t (k + i) G) ->
  NoDup (b_node <$> concat L).
Proof.
  induction L as [|G L IH]; intros k HL; simpl; [constructor|].
  rewrite fmap_app. apply NoDup_app.
  destruct (HL 0%nat G eq_refl) as (HGnd & HGmd & _).
  split_and!; [done| |].
  - intros x HxG HxL. apply elem_of_concat_nodes in HxL as (i & G' & HG' & HxG').
    destruct (HL (S i) G' HG') as (_ & HG'md & _).
    pose proof (min_dist_unique h t x _ _ (proj1 (HGmd x) HxG) (proj1 (HG'md x) HxG')). lia.
  - apply (IH (S k)). intros i G' HG'.
    replace (S k + i)%nat with (k + S i)%nat by lia. by apply (HL (S i)).
Qed.

Lemma walkc_bounds (h : gmap nat Node) skip t k x r :
  walkc h skip t k x r -> (0 <= r <= Z.of_nat k)%Z.
Proof.
  induction 1 as [|k y x r Hw IH Hxy]; [lia|].
  unfold hop_cost. destruct (skip && is_mem_node h x); lia.
Qed.

Lemma walkc_noskip (h : gmap nat Node) t k x r : walkc h false t k x r -> r = Z.of_nat k.
Proof. induction 1 as [|k y x r Hw IH Hxy]; [done|]. unfold hop_cost. simpl. lia. Qed.

Lemma chain_walk (h : gmap nat Node) t q : forall x,
  pred_chain h (x :: q) -> last (x :: q) = Some t -> walk h t (length q) x.
Proof.
  induction q as [|y q IH]; intros x Hc Hl.
  - simpl in Hl. injection Hl as ->. constructor.
  - destruct Hc as [Hxy Hc]. simpl. apply walk_S with y; [|done]. apply IH; [done|].
    exact Hl.
Qed.

Section ParentLinks.
Variables (h : gmap nat Node) (skip : bool) (t : nat) (L : list (list bfs_entry)).
Hypothesis Hlev : forall i G, L !! i = Some G -> G <> [] /\ level_ok h skip t i G.
Hypothesis Hcomp : forall j x, walk h t j x -> exists i G, L !! i = Some G /\ x ∈ b_node <$> G.

Lemma bfs_parents_lookup x p :
  bfs_parents L !! x = Some p ->
  exists i G e, L !! i = Some G /\ e ∈ G /\ b_node e = x /\ b_parent e = Some p.
Proof.
  unfold bfs_parents. intros Hx. apply elem_of_list_to_map_2, list_elem_of_omap in Hx
    as (e & He & Hpe).
  destruct (b_parent e) as [p'|] eqn:Hp; [|discriminate]. injection Hpe as Hx Hp'. subst x p'.
  apply elem_of_concat_lookup in He as (i & G & HG & HeG). eauto 10.
Qed.

Lemma bfs_parents_some e p :
  e ∈ concat L -> b_parent e = Some p -> is_Some (bfs_parents L !! b_node e).
Proof.
  unfold bfs_parents. intros He Hp.
  destruct (list_to_map _ !! b_node e) eqn:Hl; [eauto|]. exfalso.
  apply not_elem_of_list_to_map_2 in Hl. apply Hl. apply list_elem_of_fmap.
  exists (b_node e, p). split; [done|]. apply list_elem_of_omap. exists e. by rewrite Hp.
Qed.

Lemma level_of x i : min_dist h t x i ->
  exists G e, L !! i = Some G /\ e ∈ G /\ b_node e = x.
Proof.
  intros Hmd. destruct (Hcomp i x (proj1 Hmd)) as (i' & G & HG & HxG).
  destruct (Hlev i' G HG) as (_ & _ & HGmd & _).
  pose proof (min_dist_unique h t x _ _ (proj1 (HGmd x) HxG) Hmd) as ->.
  apply list_elem_of_fmap in HxG as (e & -> & He). eauto.
Qed.

Lemma parent_step x j : min_dist h t x (S j) ->
  exists p, bfs_parents L !! x = Some p /\ x ∈ pred_list h p /\ min_dist h t p j.
Proof.
  intros Hmd. destruct (level_of x (S j) Hmd) as (G & e & HG & He & <-).
  destruct (Hlev (S j) G HG) as (_ & _ & _ & _ & HGp).
  destruct (HGp e He) as (p & Hp & _).
  destruct (bfs_parents_some e p) as [p' Hp'];
    [apply elem_of_concat_lookup; eauto|done|].
  exists p'. split; [done|].
  destruct (bfs_parents_lookup _ _ Hp') as (i & G' & e' & HG' & He' & Hx & Hpe').
  destruct (Hlev i G' HG') as (_ & _ & HG'md & _ & HG'p).
  assert (i = S j) as ->.
  { apply (min_dist_unique h t (b_node e)); [|done].
    apply HG'md. apply list_elem_of_fmap. eauto. }
  destruct (HG'p e' He') as (p3 & Hp3 & Hx3 & Hmd3).
  rewrite Hpe' in Hp3. injection Hp3 as <-. by rewrite <- Hx.
Qed.

Lemma parent_root : bfs_parents L !! t = None.
Proof.
  destruct (bfs_parents L !! t) as [p|] eqn:Ht; [|done]. exfalso.
  destruct (bfs_parents_lookup _ _ Ht) as (i & G & e & HG & He & Hx & Hpe).
  destruct (Hlev i G HG) as (_ & _ & HGmd & _ & HGp).
  assert (i = 0%nat) as ->.
  { apply (min_dist_unique h t t); [apply HGmd, list_elem_of_fmap; eauto|].
    split; [constructor|lia]. }
  specialize (HGp e He). simpl in HGp. congruence.
Qed.

Lemma trace_back_spec i : forall x fuel, min_dist h t x i -> (i <= fuel)%nat ->
  head (trace_back fuel (bfs_parents L) x) = Some x /\
  last (trace_back fuel (bfs_parents L) x) = Some t /\
  pred_chain h (trace_back fuel (bfs_parents L) x) /\
  length (trace_back fuel (bfs_parents L) x) = S i.
Proof.
  induction i as [|j IH]; intros x fuel Hmd Hle.
  - destruct Hmd as [Hw _]. apply walk_0_inv in Hw as ->.
    destruct fuel; simpl; [done|]. rewrite parent_root. done.
  - destruct fuel as [|f]; [lia|].
    destruct (parent_step x j Hmd) as (p & Hp & Hxp & Hmdp).
    destruct (IH p f Hmdp ltac:(lia)) as (Hh & Hl & Hc & Hlen).
    assert (Hq : exists q, trace_back f (bfs_parents L) p = p :: q)
      by (destruct f; eexists; reflexivity).
    destruct Hq as (q & Hq). rewrite Hq in Hl, Hc, Hlen.
    simpl. rewrite Hp, Hq. simpl in Hlen. split_and!; try done. simpl. lia.
Qed.

End ParentLinks.

Lemma lookup_list_to_map_graph {A} (f : nat -> A) (l : list nat) c :
  (list_to_map ((fun c => (c, f c)) <$> l) : gmap nat A) !! c =
    if decide (c ∈ l) then Some (f c) else None.
Proof.
  induction l as [|a l IH].
  - case_decide as Hc; [inversion Hc|]. rewrite fmap_nil. apply lookup_empty.
  - rewrite fmap_cons, list_to_map_cons. simpl fst. simpl snd.
    destruct (decide (a = c)) as [->|Hne].
    + rewrite lookup_insert_eq, decide_True; [done|]. apply elem_of_cons. by left.
    + rewrite lookup_insert_ne by done. rewrite IH.
      destruct (decide (c ∈ l)) as [Hc|Hc]; destruct (decide (c ∈ a :: l)) as [Hc'|Hc']; try done.
      * exfalso. apply Hc'. apply elem_of_cons. by right.
      * apply elem_of_cons in Hc' as [->|Hc']; done.
Qed.

End LevelLemmas.

(** C3: for a sink value with node [t], [getNearestDependency] returns the
    sentinel [(None, -1)] exactly when no candidate node is reached backward
    from [t]; otherwise it returns a candidate node [n] whose number [k] of
    backward hops from [t] is the least among all candidates, with the
    reported distance of a [k]-hop walk in which each hop onto a Memory
    node costs 0 when [skipMemoryNodes] is set (the walk still passes
    through it) and 1 otherwise; without the flag the distance is [k]. *)
Theorem getNearestDependency_correct (G : Graph) (h : gmap nat Node) (sink : nat)
    (sources : gset nat) (skip : bool) (t : nat) :
  findNode G sink = Some t ->
  (forall r, getNearestDependency G h sink sources skip = (None, r) <->
     r = (-1)%Z /\ ~ exists c k, c ∈ findNodes G sources /\ walk h t k c) /\
  (forall n r, getNearestDependency G h sink sources skip = (Some n, r) ->
     n ∈ findNodes G sources /\
     exists k, walk h t k n /\
       (forall c j, c ∈ findNodes G sources -> walk h t j c -> (k <= j)%nat) /\
       walkc h skip t k n r /\ (0 <= r <= Z.of_nat k)%Z /\
       (skip = false -> r = Z.of_nat k)).
Proof.
  intros Ht. unfold getNearestDependency. rewrite Ht.
  destruct (bfs_run_spec h skip t) as (L & HL & Hlev & Hcomp). rewrite HL.
  destruct (List.find (fun e => bool_decide (b_node e ∈ findNodes G sources)) (concat L))
    as [e|] eqn:Hf.
  - destruct (find_concat_levels _ L e Hf) as (i & Gi & HGi & HeG & Hfe & Hbefore).
    apply bool_decide_eq_true in Hfe.
    destruct (Hlev i Gi HGi) as (_ & _ & HGmd & HGc & _).
    assert (Hmd : min_dist h t (b_node e) i) by (apply HGmd, list_elem_of_fmap; eauto).
    split.
    + intros r. split; [discriminate|]. intros [_ Hno]. exfalso. apply Hno.
      exists (b_node e), i. split; [done|apply Hmd].
    + intros n r Heq. injection Heq as <- <-. split; [done|]. exists i.
      split; [apply Hmd|]. split; [|split; [|split]].
      * intros c j Hc Hw. destruct (Hcomp j c Hw) as (i' & G' & HG' & HcG').
        destruct (Hlev i' G' HG') as (_ & _ & HG'md & _).
        assert (Hmd' : min_dist h t c i') by (by apply HG'md).
        destruct (Nat.lt_ge_cases i' i) as [Hlt|Hge].
        -- exfalso. apply list_elem_of_fmap in HcG' as (e' & -> & He').
           specialize (Hbefore i' G' e' Hlt HG' He').
           apply bool_decide_eq_false in Hbefore. by apply Hbefore.
        -- destruct Hmd' as [_ Hmin']. destruct (Nat.lt_ge_cases j i') as [Hlt'|?];
             [by destruct (Hmin' j Hlt')|lia].
      * by apply HGc.
      * by apply (walkc_bounds h skip t i (b_node e)), HGc.
      * intros ->. by apply (walkc_noskip h t i (b_node e)), HGc.
  - split.
    + intros r. split.
      * intros Heq. injection Heq as <-. split; [done|]. intros (c & k & Hc & Hw).
        destruct (Hcomp k c Hw) as (i & Gi & HGi & HcG).
        apply list_elem_of_fmap in HcG as (e & -> & He).
        assert (Hin : In e (concat L)) by (apply list_elem_of_In, elem_of_concat_lookup; eauto).
        pose proof (find_none _ _ Hf e Hin) as Hfe. simpl in Hfe.
        apply bool_decide_eq_false in Hfe. by apply Hfe.
      * intros [-> _]. done.
    + intros n r Heq. discriminate.
Qed.

Lemma getNearestDependency_correct_witness :
  findNode demo_G 9 = Some 1%nat /\
  getNearestDependency demo_G (heap demo_s3) 9 {[7%nat]} false = (Some 0%nat, 1%Z) /\
  exists k, walk (heap demo_s3) 1 k 0 /\ walkc (heap demo_s3) false 1 k 0 1%Z.
Proof.
  assert (Hr : getNearestDependency demo_G (heap demo_s3) 9 {[7%nat]} false = (Some 0%nat, 1%Z))
    by (vm_compute; reflexivity).
  split; [reflexivity|]. split; [exact Hr|].
  destruct (getNearestDependency_correct demo_G (heap demo_s3) 9 {[7%nat]} false 1 eq_refl)
    as [_ H2].
  destruct (H2 0%nat 1%Z Hr) as (_ & k & Hw & _ & Hc & _). exists k. split; [exact Hw|exact Hc].
Defined.

(** C4: for a sink value with node [t], [getEveryDependency] has an entry
    exactly for the candidate nodes reached backward from [t] (the others
    are absent); each entry is a node sequence from the candidate to [t]
    along edges (each node a predecessor of the next) and no such sequence
    from the candidate to [t] is shorter. *)
Theorem getEveryDependency_correct (G : Graph) (h : gmap nat Node) (sink : nat)
    (sources : gset nat) (skip : bool) (t : nat) :
  findNode G sink = Some t ->
  (forall c, is_Some (getEveryDependency G h sink sources skip !! c) <->
     c ∈ findNodes G sources /\ exists k, walk h t k c) /\
  (forall c p, getEveryDependency G h sink sources skip !! c = Some p ->
     head p = Some c /\ last p = Some t /\ pred_chain h p /\
     (forall q, head q = Some c -> last q = Some t -> pred_chain h q ->
        (length p <= length q)%nat)).
Proof.
  intros Ht. unfold getEveryDependency. rewrite Ht.
  destruct (bfs_run_spec h skip t) as (L & HL & Hlev & Hcomp). rewrite HL.
  cbv beta iota zeta.
  assert (HR : forall c, c ∈ (list_to_set (b_node <$> concat L) : gset nat) <->
                         exists k, walk h t k c).
  { intros c. rewrite elem_of_list_to_set, elem_of_concat_nodes. split.
    - intros (i & Gi & HGi & HcG). destruct (Hlev i Gi HGi) as (_ & _ & HGmd & _).
      exists i. by apply HGmd.
    - intros (k & Hw). by apply (Hcomp k). }
  assert (Hmem : forall c, c ∈ filter (fun c => c ∈ (list_to_set (b_node <$> concat L) : gset nat))
                               (elements (findNodes G sources)) <->
                           c ∈ findNodes G sources /\ exists k, walk h t k c).
  { intros c. rewrite list_elem_of_filter, elem_of_elements, HR. tauto. }
  split.
  - intros c. rewrite (lookup_list_to_map_graph (trace_back (length (concat L)) (bfs_parents L))).
    rewrite <- Hmem. case_decide as Hc; split; intros H; try done.
  - intros c p. rewrite (lookup_list_to_map_graph (trace_back (length (concat L)) (bfs_parents L))).
    case_decide as Hc; [|discriminate]. intros [= <-].
    apply Hmem in Hc as [_ (k & Hw)].
    destruct (Hcomp k c Hw) as (i & Gi & HGi & HcG).
    destruct (Hlev i Gi HGi) as (_ & _ & HGmd & _).
    assert (Hmd : min_dist h t c i) by (by apply HGmd).
    assert (Hi : (i <= length (concat L))%nat).
    { apply lookup_lt_Some in HGi.
      pose proof (levels_length L (fun i G HG => proj1 (Hlev i G HG))). lia. }
    destruct (trace_back_spec h skip t L Hlev Hcomp i c _ Hmd Hi) as (Hh & Hl & Hch & Hlen).
    split_and!; [done|done|done|].
    intros q Hq Hql Hqc. destruct q as [|c' q]; [discriminate|]. injection Hq as ->.
    pose proof (chain_walk h t q c Hqc Hql) as Hwq.
    rewrite Hlen. simpl. destruct Hmd as [_ Hmin].
    destruct (Nat.lt_ge_cases (length q) i) as [Hlt|?]; [by destruct (Hmin _ Hlt)|lia].
Qed.

Lemma getEveryDependency_correct_witness :
  findNode demo_G 9 = Some 1%nat /\
  (is_Some (getEveryDependency demo_G (heap demo_s3) 9 {[7%nat]} false !! 0%nat) <->
     0%nat ∈ findNodes demo_G {[7%nat]} /\ exists k, walk (heap demo_s3) 1 k 0).
Proof.
  split; [reflexivity|].
  exact (proj1 (getEveryDependency_correct demo_G (heap demo_s3) 9 {[7%nat]} false 1 eq_refl) 0%nat).
Defined.

(** C8: on every finite graph, cycles included, each traversal completes
    (no run out of fuel) and expands each node at most once: the
    depth-first runs behind [getDepValues] and [generateSubGraph] (from any
    set of start nodes, in either direction) list each expanded node once
    and visit exactly those, and the breadth-first run behind
    [getNearestDependency] and [getEveryDependency] dequeues each node at
    most once. *)
Theorem traversals_terminate (h : gmap nat Node) :
  (forall srcs fw, exists V T, getDepValues_run h srcs fw = Some (V, T) /\ NoDup T /\
                               V = list_to_set T) /\
  (forall skip t, exists L, bfs_run h skip t = Some L /\ NoDup (b_node <$> concat L)).
Proof.
  split.
  - intros srcs fw. destruct (getDepValues_run_spec h srcs fw) as (V & T & HT & HN & HV & _).
    eauto.
  - intros skip t. destruct (bfs_run_spec h skip t) as (L & HL & Hlev & _).
    exists L. split; [done|]. apply (levels_nodup h skip t L 0%nat).
    intros i G HG. apply (Hlev i G HG).
Qed.

(** ** Construction: proofs *)

Section BuilderProofs.
Local Open Scope nat_scope.

Lemma preserves_refl s : preserves s s.
Proof. split; [lia|done]. Qed.

Lemma preserves_new s c p cls s' :
  c = currentID s -> heap s' = <[c := mkNode c cls ∅ ∅ p]> (heap s) -> currentID s' = S c ->
  preserves s s'.
Proof.
  intros -> Hh Hc. split; [lia|]. intros n Hn. unfold node_kind. rewrite Hh.
  rewrite lookup_insert_ne by lia. done.
Qed.

Lemma preserves_connect s a b t : preserves s (connect a b t s).
Proof.
  destruct (connect_fields s a b t) as (Hc & _). split; [lia|]. intros n _.
  destruct (connect_payload s a b t n) as [Hp Hk]. unfold node_kind.
  destruct (heap (connect a b t s) !! n), (heap s !! n); simpl in *; try discriminate; [|done].
  injection Hp as ->. injection Hk as ->. done.
Qed.

Lemma builder_inv_preserves G s s' log :
  builder_inv G s log -> preserves s s' -> builder_inv G s' log.
Proof.
  intros (H1 & H2 & H3 & H4) [Hc Hk]. split_and!.
  - intros n Hn. specialize (H1 n Hn). lia.
  - intros id n Hn. destruct (H2 id n Hn) as [Hin Hnk]. rewrite Hk by auto. done.
  - intros n id c Hn. rewrite Hk by auto. by apply H3.
  - done.
Qed.

Lemma builder_inv_log_plain G s log v n :
  builder_inv G s log -> AS G v = None -> builder_inv G s (log ++ [(v, n)]).
Proof.
  intros (H1 & H2 & H3 & H4) Hv. split_and!; try done.
  intros v' n' id Hin Hv'. apply elem_of_app in Hin as [Hin|Hin]; [by apply (H4 v')|].
  apply list_elem_of_singleton in Hin. injection Hin as -> ->. congruence.
Qed.

Lemma builder_inv_log_mem G s log v n id :
  builder_inv G s log -> AS G v = Some id -> memNodes G !! id = Some n ->
  builder_inv G s (log ++ [(v, n)]).
Proof.
  intros (H1 & H2 & H3 & H4) Hv Hm. split_and!; try done.
  intros v' n' id' Hin Hv'. apply elem_of_app in Hin as [Hin|Hin]; [by apply (H4 v')|].
  apply list_elem_of_singleton in Hin. injection Hin as -> ->. congruence.
Qed.

(** A new node that is not a Memory node, added to the graph's nodes. *)
Lemma builder_inv_new_plain G s log G' s' cls p :
  builder_inv G s log ->
  heap s' = <[currentID s := mkNode (currentID s) cls ∅ ∅ p]> (heap s) ->
  currentID s' = S (currentID s) -> (forall id, p <> PMem id) ->
  AS G' = AS G -> memNodes G' = memNodes G -> nodes G' = {[currentID s]} ∪ nodes G ->
  builder_inv G' s' log.
Proof.
  intros (H1 & H2 & H3 & H4) Hh Hc Hp HAS Hm Hn.
  assert (Hk : forall n, n < currentID s -> node_kind s' n = node_kind s n).
  { intros n Hlt. unfold node_kind. rewrite Hh, lookup_insert_ne by lia. done. }
  split_and!.
  - intros n. rewrite Hn, elem_of_union, elem_of_singleton. intros [->|Hin]; [lia|].
    specialize (H1 n Hin). lia.
  - intros id n. rewrite Hm. intros Hmn. destruct (H2 id n Hmn) as [Hin Hnk].
    rewrite Hn, Hk by auto. split; [set_solver|done].
  - intros n id c. rewrite Hn, Hm, elem_of_union, elem_of_singleton. intros [->|Hin].
    + unfold node_kind. rewrite Hh, lookup_insert_eq. simpl. intros [= Hpm _].
      by destruct (Hp id).
    + rewrite Hk by auto. by apply H3.
  - intros v n id. rewrite HAS, Hm. apply H4.
Qed.

Lemma node_of_spec P v G s log G' s' n :
  builder_inv G s log -> node_of P v G s = (G', s', n) ->
  builder_inv G' s' (log ++ [(v, n)]) /\ AS G' = AS G.
Proof.
  intros HI. unfold node_of. destruct (AS G v) as [id|] eqn:Hv.
  - destruct (memNodes G !! id) as [m|] eqn:Hm.
    + intros [= <- <- <-]. split; [|done]. by apply (builder_inv_log_mem G s log v m id).
    + rewrite new_MemNode_eq. intros [= <- <- <-]. split; [|done].
      destruct HI as (H1 & H2 & H3 & H4). set (c := currentID s).
      set (s1 := mkSt _ _ _ _ _ _).
      assert (Hk : forall k, k < c -> node_kind s1 k = node_kind s k).
      { intros k Hlt. unfold node_kind, s1. simpl. rewrite lookup_insert_ne by lia. done. }
      assert (Hkc : node_kind s1 c = Some (PMem id, 4%Z)).
      { unfold node_kind, s1. simpl. by rewrite lookup_insert_eq. }
      split_and!; simpl.
      * intros k. rewrite elem_of_union, elem_of_singleton. intros [->|Hin]; [unfold s1; simpl; lia|].
        specialize (H1 k Hin). unfold s1. simpl. lia.
      * intros id' k. destruct (decide (id' = id)) as [->|Hne].
        -- rewrite lookup_insert_eq. intros [= <-]. split; [set_solver|done].
        -- rewrite lookup_insert_ne by done. intros Hk'. destruct (H2 id' k Hk') as [Hin Hnk].
           split; [set_solver|]. rewrite Hk; [done|]. by apply H1.
      * intros k id' c'. rewrite elem_of_union, elem_of_singleton. intros [->|Hin].
        -- rewrite Hkc. intros [= <- _]. by rewrite lookup_insert_eq.
        -- rewrite Hk by (by apply H1). intros Hnk. pose proof (H3 k id' c' Hin Hnk) as Hm'.
           destruct (decide (id' = id)) as [->|Hne]; [congruence|].
           by rewrite lookup_insert_ne by done.
      * intros v' k id'. rewrite elem_of_app, list_elem_of_singleton. intros [Hin|[= -> ->]] Hv'.
        -- pose proof (H4 v' k id' Hin Hv') as Hm'.
           destruct (decide (id' = id)) as [->|Hne]; [congruence|].
           by rewrite lookup_insert_ne by done.
        -- rewrite Hv in Hv'. injection Hv' as <-. by rewrite lookup_insert_eq.
  - destruct (vkind P v) as [| |opc ctrl|].
    + destruct (varNodes G !! v) as [m|].
      * intros [= <- <- <-]. split; [|done]. by apply builder_inv_log_plain.
      * rewrite new_VarNode_eq. intros [= <- <- <-]. split; [|done].
        apply builder_inv_log_plain; [|done].
        by apply (builder_inv_new_plain G s log _ _ 2 (PVar v)).
    + destruct (callNodes G !! v) as [m|].
      * intros [= <- <- <-]. split; [|done]. by apply builder_inv_log_plain.
      * rewrite new_CallNode_eq. intros [= <- <- <-]. split; [|done].
        apply builder_inv_log_plain; [|done].
        by apply (builder_inv_new_plain G s log _ _ 3 (PCall Instruction_Call (Some v) v)).
    + destruct (opNodes G !! v) as [m|].
      * intros [= <- <- <-]. split; [|done]. by apply builder_inv_log_plain.
      * rewrite new_OpNode_eq. intros [= <- <- <-]. split; [|done].
        apply builder_inv_log_plain; [|done].
        by apply (builder_inv_new_plain G s log _ _ 1 (POp opc (Some v))).
    + destruct (varNodes G !! v) as [m|].
      * intros [= <- <- <-]. split; [|done]. by apply builder_inv_log_plain.
      * rewrite new_VarNode_eq. intros [= <- <- <-]. split; [|done].
        apply builder_inv_log_plain; [|done].
        by apply (builder_inv_new_plain G s log _ _ 2 (PVar v)).
Qed.

Lemma add_operands_spec P n ty os : forall G s log G' s' log',
  builder_inv G s log -> add_operands P n ty os (G, s, log) = (G', s', log') ->
  builder_inv G' s' log' /\ AS G' = AS G.
Proof.
  induction os as [|o os IH]; intros G s log G' s' log' HI; simpl.
  - intros [= <- <- <-]. done.
  - destruct (node_of P o G s) as [[G1 s1] no] eqn:Hn.
    destruct (node_of_spec P o G s log G1 s1 no HI Hn) as [HI1 HAS1].
    intros Hops. destruct (IH G1 (connect no n ty s1) (log ++ [(o, no)]) G' s' log') as [HI' HAS'];
      [|done|].
    + apply (builder_inv_preserves _ s1); [done|apply preserves_connect].
    + split; [done|congruence].
Qed.

Lemma addInst_spec P v G s log G' s' log' :
  builder_inv G s log -> (addInst P v (G, s, log)).1 = (G', s', log') ->
  builder_inv G' s' log' /\ AS G' = AS G.
Proof.
  intros HI. unfold addInst.
  destruct (vkind P v) as [| |opc ctrl|] eqn:Hk;
    [intros [= <- <- <-]; done| | |];
    (destruct (node_of P v G s) as [[G1 s1] n] eqn:Hn; simpl;
     destruct (node_of_spec P v G s log G1 s1 n HI Hn) as [HI1 HAS1];
     intros Hops; edestruct add_operands_spec as [HI' HAS']; [exact HI1|exact Hops|];
     split; [done|congruence]).
Qed.

Lemma build_spec P vs : forall G s log G' s' log',
  builder_inv G s log -> build P vs (G, s, log) = (G', s', log') ->
  builder_inv G' s' log' /\ AS G' = AS G.
Proof.
  induction vs as [|v vs IH]; intros G s log G' s' log' HI; simpl.
  - intros [= <- <- <-]. done.
  - destruct (addInst P v (G, s, log)).1 as [[G1 s1] log1] eqn:Ha.
    destruct (addInst_spec P v G s log G1 s1 log1 HI Ha) as [HI1 HAS1].
    intros Hb. destruct (IH G1 s1 log1 G' s' log' HI1 Hb) as [HI' HAS'].
    split; [done|congruence].
Qed.

Lemma builder_inv_empty as_ s : builder_inv (empty_graph as_) s [].
Proof.
  split_and!; simpl.
  - intros n Hn. set_solver.
  - intros id n Hn. by rewrite lookup_empty in Hn.
  - intros n id c Hn. set_solver.
  - intros v n id Hin. inversion Hin.
Qed.

End BuilderProofs.

(** C7: in a construction from an empty graph, any two values the alias
    oracle puts in the same alias set are routed to one and the same node
    (the same node ID), the graph's Memory node of that set, a live node
    carrying that alias-set ID; and the graph holds at most one Memory node
    per alias-set ID. *)
Theorem alias_collapsing (P : IR) (as_ : nat -> option Z) (vs : list nat) (s : St) :
  (forall v1 v2 n1 n2 id,
     (v1, n1) ∈ (build P vs (empty_graph as_, s, [])).2 ->
     (v2, n2) ∈ (build P vs (empty_graph as_, s, [])).2 ->
     as_ v1 = Some id -> as_ v2 = Some id ->
     n1 = n2 /\ memNodes (build P vs (empty_graph as_, s, [])).1.1 !! id = Some n1 /\
     n1 ∈ nodes (build P vs (empty_graph as_, s, [])).1.1 /\
     exists nd, heap (build P vs (empty_graph as_, s, [])).1.2 !! n1 = Some nd /\
                payload nd = PMem id /\ MemNode_classof nd = true) /\
  (forall id n1 n2 nd1 nd2,
     n1 ∈ nodes (build P vs (empty_graph as_, s, [])).1.1 ->
     n2 ∈ nodes (build P vs (empty_graph as_, s, [])).1.1 ->
     heap (build P vs (empty_graph as_, s, [])).1.2 !! n1 = Some nd1 ->
     heap (build P vs (empty_graph as_, s, [])).1.2 !! n2 = Some nd2 ->
     payload nd1 = PMem id -> payload nd2 = PMem id -> n1 = n2).
Proof.
  destruct (build P vs (empty_graph as_, s, [])) as [[G' s'] log] eqn:Hb. simpl.
  destruct (build_spec P vs _ _ _ G' s' log (builder_inv_empty as_ s) Hb)
    as ((H1 & H2 & H3 & H4) & HAS).
  simpl in HAS. split.
  - intros v1 v2 n1 n2 id Hv1 Hv2 Ha1 Ha2.
    rewrite <- HAS in Ha1, Ha2.
    pose proof (H4 v1 n1 id Hv1 Ha1) as Hm1. pose proof (H4 v2 n2 id Hv2 Ha2) as Hm2.
    destruct (H2 id n1 Hm1) as [Hin Hnk].
    split; [congruence|]. split; [done|]. split; [done|].
    unfold node_kind in Hnk. destruct (heap s' !! n1) as [nd|]; [|discriminate].
    simpl in Hnk. injection Hnk as Hp Hc. exists nd. split_and!; [done|done|].
    unfold MemNode_classof. by apply bool_decide_eq_true.
  - intros id n1 n2 nd1 nd2 Hn1 Hn2 Hh1 Hh2 Hp1 Hp2.
    assert (Hm1 : memNodes G' !! id = Some n1).
    { apply (H3 n1 id (Class_ID nd1) Hn1). unfold node_kind. by rewrite Hh1, <- Hp1. }
    assert (Hm2 : memNodes G' !! id = Some n2).
    { apply (H3 n2 id (Class_ID nd2) Hn2). unfold node_kind. by rewrite Hh2, <- Hp2. }
    congruence.
Qed.

(** The Memory node 1 lies on the only path from value 20 to value 21: its
    hop is free with [skipMemoryNodes] and counts without it. *)
Example getNearestDependency_memory_hop :
  getNearestDependency mem_G (heap mem_s5) 21 {[20%nat]} true = (Some 0%nat, 1%Z) /\
  getNearestDependency mem_G (heap mem_s5) 21 {[20%nat]} false = (Some 0%nat, 2%Z).
Proof. split; vm_compute; reflexivity. Qed.

(** The two pointer operands of instruction 1, of one alias set, are routed
    to the one Memory node 1, the graph's only node of alias set 7. *)
Example build_alias_IR :
  (build alias_IR [1%nat] (empty_graph alias_AS, st_init, [])).2 =
    [(1%nat, 0%nat); (2%nat, 1%nat); (3%nat, 1%nat); (4%nat, 2%nat)] /\
  memNodes (build alias_IR [1%nat] (empty_graph alias_AS, st_init, [])).1.1 = {[7 := 1%nat]}.
Proof. split; vm_compute; reflexivity. Qed.

(** ** Node lifetime: the header's constructors and destructors *)

Lemma live_not_neighbour_fresh s k m :
  Inv s -> heap s !! k = Some m ->
  successors m !! currentID s = None /\ predecessors m !! currentID s = None.
Proof.
  intros (Hf & _ & _ & Hs) Hk.
  assert (Hc : heap s !! currentID s = None).
  { destruct (heap s !! currentID s) eqn:E; [|done].
    specialize (Hf (currentID s) ltac:(rewrite E; eauto)). lia. }
  split.
  - destruct (successors m !! currentID s) as [t|] eqn:E; [|done].
    destruct (proj1 (Hs k (currentID s) t) (ex_intro _ m (conj Hk E))) as (n & Hn & _).
    congruence.
  - destruct (predecessors m !! currentID s) as [t|] eqn:E; [|done].
    destruct (proj2 (Hs (currentID s) k t) (ex_intro _ m (conj Hk E))) as (n & Hn & _).
    congruence.
Qed.

Lemma delete_fresh_heap s n :
  Inv s ->
  delete (currentID s) (unlink (currentID s) <$> <[currentID s := n]> (heap s)) = heap s.
Proof.
  intros HI. apply map_eq. intros k. rewrite lookup_unlink.
  case_decide as Hk.
  - subst k. destruct HI as (Hf & _). destruct (heap s !! currentID s) eqn:E; [|done].
    specialize (Hf (currentID s) ltac:(rewrite E; eauto)). lia.
  - rewrite lookup_insert_ne by done.
    destruct (heap s !! k) as [m|] eqn:Hm; [|done]. simpl.
    destruct (live_not_neighbour_fresh s k m HI Hm) as [Hs Hp].
    unfold unlink. rewrite !delete_id by done. by destruct m.
Qed.

Lemma incident_edges_new c cls p : incident_edges (mkNode c cls ∅ ∅ p) c = 0.
Proof.
  unfold incident_edges. cbn [successors predecessors].
  rewrite map_size_empty, dom_empty_L, decide_False by set_solver. lia.
Qed.

(** Constructing a node and deleting it again is undone completely: for
    each of the four node constructors, in every reachable state, deleting
    the node just built restores the heap of live nodes (no neighbour keeps
    an edge to it), the three node counters and the edge counter; the ID
    counter has advanced by one, so the deleted ID is not issued again. *)
Theorem node_ctor_dtor_roundtrip (s : St) :
  reachable s ->
  (forall opc v, ctor_undone s (new_OpNode opc v s)) /\
  (forall ci, ctor_undone s (new_CallNode ci s)) /\
  (forall v, ctor_undone s (new_VarNode v s)) /\
  (forall id, ctor_undone s (new_MemNode id s)).
Proof.
  intros Hr. pose proof (Inv_reachable s Hr) as HI.
  split_and!; intros;
    rewrite ?new_OpNode_eq, ?new_CallNode_eq, ?new_VarNode_eq, ?new_MemNode_eq;
    unfold ctor_undone, delete_node;
    cbn [fst snd heap currentID NrOpNodes NrVarNodes NrMemNodes NrEdges];
    rewrite lookup_insert_eq; cbn [payload heap currentID NrOpNodes NrVarNodes NrMemNodes NrEdges];
    rewrite incident_edges_new, delete_fresh_heap by done;
    split_and!; try reflexivity; lia.
Qed.

Lemma node_ctor_dtor_roundtrip_witness :
  reachable demo_s4 /\
  ((forall opc v, ctor_undone demo_s4 (new_OpNode opc v demo_s4)) /\
   (forall ci, ctor_undone demo_s4 (new_CallNode ci demo_s4)) /\
   (forall v, ctor_undone demo_s4 (new_VarNode v demo_s4)) /\
   (forall id, ctor_undone demo_s4 (new_MemNode id demo_s4))).
Proof. split; [reach_demo | apply node_ctor_dtor_roundtrip; reach_demo]. Defined.

(** Every live node of a reachable state answers exactly one of the class
    tests [OpNode::classof], [VarNode::classof] and [MemNode::classof]
    (a [CallNode] answers [OpNode::classof]): its [Class_ID] is one of the
    four values the constructors assign. *)
Theorem class_tests_partition (s : St) (k : nat) (n : Node) :
  reachable s -> heap s !! k = Some n ->
  Class_ID n ∈ [1; 2; 3; 4] /\
  (if OpNode_classof n then 1 else 0) + (if VarNode_classof n then 1 else 0) +
  (if MemNode_classof n then 1 else 0) = 1.
Proof.
  intros Hr Hk. destruct (Inv_reachable s Hr) as (_ & Hc & _).
  specialize (Hc k n Hk).
  unfold OpNode_classof, VarNode_classof, MemNode_classof. rewrite Hc.
  destruct (payload n); cbn; split; try reflexivity; set_solver.
Qed.

Lemma class_tests_partition_witness :
  reachable demo_s4 /\ heap demo_s4 !! 2%nat = Some (mkNode 2 3 ∅ ∅ (PCall 48 (Some 11%nat) 11)) /\
  (Class_ID (mkNode 2 3 ∅ ∅ (PCall 48 (Some 11%nat) 11)) ∈ [1; 2; 3; 4] /\
   (if OpNode_classof (mkNode 2 3 ∅ ∅ (PCall 48 (Some 11%nat) 11)) then 1 else 0) +
   (if VarNode_classof (mkNode 2 3 ∅ ∅ (PCall 48 (Some 11%nat) 11)) then 1 else 0) +
   (if MemNode_classof (mkNode 2 3 ∅ ∅ (PCall 48 (Some 11%nat) 11)) then 1 else 0) = 1).
Proof.
  refine (conj _ (conj _ _)); [reach_demo | vm_compute; reflexivity |].
  apply (class_tests_partition demo_s4 2); [reach_demo | vm_compute; reflexivity].
Defined.



(** Deleting a live node of a reachable state runs the destructor of its
    class: [NrOpNodes] drops by one exactly when [OpNode::classof] accepts
    the node (a [CallNode] included, through [~OpNode]), [NrVarNodes] and
    [NrMemNodes] likewise for their classes; no counter goes below zero,
    so the unsigned STATISTIC never wraps. The node is gone, and its ID
    stays below the ID counter, so it is never issued again. *)
Theorem delete_node_counters (s : St) (i : nat) (n : Node) :
  reachable s -> heap s !! i = Some n ->
  NrOpNodes (delete_node i s) = NrOpNodes s - (if OpNode_classof n then 1 else 0) /\
  NrVarNodes (delete_node i s) = NrVarNodes s - (if VarNode_classof n then 1 else 0) /\
  NrMemNodes (delete_node i s) = NrMemNodes s - (if MemNode_classof n then 1 else 0) /\
  0 <= NrOpNodes (delete_node i s) /\ 0 <= NrVarNodes (delete_node i s) /\
  0 <= NrMemNodes (delete_node i s) /\
  heap (delete_node i s) !! i = None /\ (i < currentID (delete_node i s))%nat.
Proof.
  intros Hr Hn. pose proof (Inv_reachable s Hr) as HI.
  destruct (Inv_delete s i HI) as (_ & _ & (Ho & Hv & Hm) & _).
  destruct HI as (Hf & Hc & _ & _). specialize (Hc i n Hn).
  assert (Hi : (i < currentID s)%nat) by (apply Hf; eauto).
  assert (Hz : forall Q h, 0 <= count Q h) by (intros; unfold count; lia).
  assert (Hd : heap (delete_node i s) !! i = None /\ currentID (delete_node i s) = currentID s).
  { unfold delete_node. rewrite Hn.
    destruct (payload n); cbn [heap currentID]; rewrite lookup_unlink, decide_True by done;
      done. }
  destruct Hd as [Hd1 Hd2].
  rewrite Hd2. split_and!; [| | | rewrite Ho; apply Hz | rewrite Hv; apply Hz
                            | rewrite Hm; apply Hz | exact Hd1 | exact Hi];
    unfold delete_node; rewrite Hn;
    unfold OpNode_classof, VarNode_classof, MemNode_classof; rewrite Hc;
    destruct (payload n); cbn; repeat case_bool_decide; simpl; lia.
Qed.

Lemma delete_node_counters_witness :
  reachable demo_s4 /\
  heap demo_s4 !! 2%nat = Some (mkNode 2 3 ∅ ∅ (PCall 48 (Some 11%nat) 11)) /\
  (NrOpNodes (delete_node 2 demo_s4) = NrOpNodes demo_s4 -
     (if OpNode_classof (mkNode 2 3 ∅ ∅ (PCall 48 (Some 11%nat) 11)) then 1 else 0) /\
   NrVarNodes (delete_node 2 demo_s4) = NrVarNodes demo_s4 -
     (if VarNode_classof (mkNode 2 3 ∅ ∅ (PCall 48 (Some 11%nat) 11)) then 1 else 0) /\
   NrMemNodes (delete_node 2 demo_s4) = NrMemNodes demo_s4 -
     (if MemNode_classof (mkNode 2 3 ∅ ∅ (PCall 48 (Some 11%nat) 11)) then 1 else 0) /\
   0 <= NrOpNodes (delete_node 2 demo_s4) /\ 0 <= NrVarNodes (delete_node 2 demo_s4) /\
   0 <= NrMemNodes (delete_node 2 demo_s4) /\
   heap (delete_node 2 demo_s4) !! 2%nat = None /\ (2 < currentID (delete_node 2 demo_s4))%nat).
Proof.
  refine (conj _ (conj _ _)); [reach_demo | vm_compute; reflexivity |].
  apply (delete_node_counters demo_s4 2); [reach_demo | vm_compute; reflexivity].
Defined.

(** ** [ViewModuleDepGraph::runOnModule]: the name of the dot file *)

Section ViewModuleProofs.
Import Strings.String Strings.Ascii.
Local Open Scope string_scope.

Lemma replace_length m o c : String.length (replace m o c) = String.length m.
Proof. induction m; simpl; congruence. Qed.

Lemma replace_get m o c i :
  get i (replace m o c) = option_map (fun x => if Ascii.eqb x o then c else x) (get i m).
Proof. revert i; induction m; intros [|i]; simpl; auto. Qed.

Lemma string_length_append a b :
  String.length (a ++ b) = (String.length a + String.length b)%nat.
Proof. induction a as [|c a IH]; simpl; [reflexivity | rewrite IH; reflexivity]. Qed.

Lemma get_append_inv a b i x :
  get i (a ++ b) = Some x -> get i a = Some x \/ exists j, get j b = Some x.
Proof.
  revert i; induction a as [|c a IH]; intros i H; simpl in H.
  - right. eauto.
  - destruct i as [|i]; [left; exact H|]. simpl. by apply IH.
Qed.

Lemma append_cancel_r a b t : a ++ t = b ++ t -> a = b.
Proof.
  revert b; induction a as [|c a IH]; intros [|d b] H; simpl in H.
  - done.
  - exfalso. apply (f_equal String.length) in H. simpl in H.
    rewrite !string_length_append in H. cbn in H. lia.
  - exfalso. apply (f_equal String.length) in H. simpl in H.
    rewrite !string_length_append in H. cbn in H. lia.
  - injection H as -> H. f_equal. by apply IH.
Qed.

Lemma sanitize_eq c1 c2 :
  (if Ascii.eqb c1 backslash then "_"%char else c1) = (if Ascii.eqb c2 backslash then "_"%char else c2) <->
  c1 = c2 \/ ((c1 = backslash \/ c1 = "_"%char) /\ (c2 = backslash \/ c2 = "_"%char)).
Proof.
  destruct (Ascii.eqb_spec c1 backslash) as [H1|H1], (Ascii.eqb_spec c2 backslash) as [H2|H2];
    split; intros H; subst; try tauto; try congruence;
    destruct H as [H|[[H|H] [H'|H']]]; congruence.
Qed.

(** [ViewModuleDepGraph::runOnModule] hands [toDot] the module identifier
    unchanged as the title and ["/tmp/" ++ r ++ ".dot"] as the file name,
    where [r] has the identifier's length, holds ['_'] wherever the
    identifier holds a backslash and the identifier's own character
    everywhere else (a ['/'] is kept); the file name holds no backslash,
    and the pass reports the module unchanged. *)
Theorem runOnModule_dot_filename (m : string) :
  let '((title, Filename), changed) := ViewModuleDepGraph_runOnModule m in
  title = m /\ changed = false /\
  String.length Filename = (String.length m + 9)%nat /\
  (exists r, Filename = "/tmp/" ++ r ++ ".dot" /\ String.length r = String.length m /\
     (forall i, get i m = Some backslash -> get i r = Some "_"%char) /\
     (forall i c, c <> backslash -> get i m = Some c -> get i r = Some c)) /\
  (forall i, get i Filename <> Some backslash).
Proof.
  unfold ViewModuleDepGraph_runOnModule. split_and!; [done|done| | |].
  - rewrite !string_length_append, replace_length. cbn. lia.
  - exists (replace m backslash "_"). split_and!; [done|apply replace_length| |].
    + intros i Hi. rewrite replace_get, Hi. reflexivity.
    + intros i c Hc Hi. rewrite replace_get, Hi. simpl.
      destruct (Ascii.eqb_spec c backslash); done.
  - intros i H.
    assert (Hp : forall j, get j "/tmp/" <> Some backslash).
    { intros [|[|[|[|[|[|j]]]]]]; simpl; discriminate. }
    assert (Hd : forall j, get j ".dot" <> Some backslash).
    { intros [|[|[|[|[|j]]]]]; simpl; discriminate. }
    apply get_append_inv in H as [H|[j H]]; [by apply (Hp i)|].
    apply get_append_inv in H as [H|[j' H]]; [|by apply (Hd j')].
    rewrite replace_get in H. destruct (get j m) as [c|]; simpl in H; [|discriminate].
    destruct (Ascii.eqb_spec c backslash); injection H as H; [discriminate|congruence].
Qed.

Lemma replace_eq_iff m1 m2 :
  replace m1 backslash "_" = replace m2 backslash "_" <->
  String.length m1 = String.length m2 /\
  forall i c1 c2, get i m1 = Some c1 -> get i m2 = Some c2 ->
    c1 = c2 \/ ((c1 = backslash \/ c1 = "_"%char) /\ (c2 = backslash \/ c2 = "_"%char)).
Proof.
  revert m2; induction m1 as [|c1 r1 IH]; intros [|c2 r2]; simpl.
  - split; [intros _; split; [done|]; intros [|i]; discriminate | done].
  - split; [discriminate | intros [H _]; discriminate].
  - split; [discriminate | intros [H _]; discriminate].
  - split.
    + intros H. injection H as Hc Hr. apply IH in Hr as [Hl Hp].
      split; [by rewrite Hl|]. intros [|i] x1 x2 H1 H2; simpl in H1, H2.
      * injection H1 as <-. injection H2 as <-. by apply sanitize_eq.
      * eauto.
    + intros [Hl Hp]. f_equal.
      * apply sanitize_eq. by apply (Hp 0%nat).
      * apply IH. split; [lia|]. intros i x1 x2 H1 H2. by apply (Hp (S i)).
Qed.

(** Two modules share a dot file exactly when their identifiers have the
    same length and, position by position, hold the same character or two
    characters each a backslash or an underscore: the backslash
    replacement makes e.g. "a\b" and "a_b" write the same file. *)
Theorem runOnModule_filename_collision (m1 m2 : string) :
  (ViewModuleDepGraph_runOnModule m1).1.2 = (ViewModuleDepGraph_runOnModule m2).1.2 <->
  String.length m1 = String.length m2 /\
  forall i c1 c2, get i m1 = Some c1 -> get i m2 = Some c2 ->
    c1 = c2 \/ ((c1 = backslash \/ c1 = "_"%char) /\ (c2 = backslash \/ c2 = "_"%char)).
Proof.
  rewrite <- replace_eq_iff. unfold ViewModuleDepGraph_runOnModule. simpl. split.
  - intros H. injection H as H. apply (append_cancel_r _ _ ".dot"). exact H.
  - intros ->. reflexivity.
Qed.

(** The identifiers "a\b" and "a_b" name the same dot file. *)
Example runOnModule_backslash_collision :
  (ViewModuleDepGraph_runOnModule (String "a" (String backslash (String "b" EmptyString)))).1.2 =
  (ViewModuleDepGraph_runOnModule "a_b").1.2.
Proof. vm_compute. reflexivity. Qed.

(** A module identifier without a backslash is used as it is: the dot file
    is ["/tmp/" ++ identifier ++ ".dot"]. *)
Theorem runOnModule_filename_plain (m : string) :
  (forall i, get i m <> Some backslash) ->
  (ViewModuleDepGraph_runOnModule m).1.2 = "/tmp/" ++ m ++ ".dot".
Proof.
  intros Hm. unfold ViewModuleDepGraph_runOnModule. simpl. do 5 f_equal.
  induction m as [|c r IH]; [done|]. simpl. f_equal.
  - destruct (Ascii.eqb_spec c backslash) as [->|]; [|done].
    exfalso. apply (Hm 0%nat). reflexivity.
  - apply IH. intros i. apply (Hm (S i)).
Qed.

Lemma runOnModule_filename_plain_witness :
  (forall i, get i "a.ll" <> Some backslash) /\
  (ViewModuleDepGraph_runOnModule "a.ll").1.2 = "/tmp/" ++ "a.ll" ++ ".dot".
Proof.
  assert (H : forall i, get i "a.ll" <> Some backslash).
  { intros [|[|[|[|[|i]]]]]; simpl; discriminate. }
  split; [exact H | apply runOnModule_filename_plain; exact H].
Defined.

End ViewModuleProofs.
